(** * markdown-web-scraper: the crawl loop and the Markdown extractor

    A shallow embedding of [web-scraper-markdown.js].  JavaScript strings are
    sequences of UTF-16 code units; exceptions are modelled by [option]
    ([None] is a raised exception); the [Set] and [Map] of the crawl loop are
    stdpp's [gset] and [gmap]; the WHATWG [URL] class of the runtime and the
    browser driven through puppeteer are interfaces the program is
    parametrised by. *)

From Stdlib Require Import NArith ZArith Ascii String DecimalString.
From stdpp Require Import base option list sorting gmap strings.

Local Open Scope N_scope.

(** ** JavaScript strings *)

(** A string is its list of UTF-16 code units. *)
Abbreviation jsstring := (list N).

(** A literal of the source, all of whose characters are ASCII. *)
Definition lit (s : string) : jsstring :=
  N_of_ascii <$> list_ascii_of_string s.

(** [!s] is false exactly on the non-empty strings. *)
Definition truthy (s : jsstring) : bool :=
  match s with [] => false | _ :: _ => true end.

(** [s.startsWith(p)] *)
Fixpoint startsWith (s p : jsstring) : bool :=
  match p, s with
  | [], _ => true
  | _ :: _, [] => false
  | a :: p', b :: s' => if decide (a = b) then startsWith s' p' else false
  end.

(** [s.endsWith(p)] *)
Definition endsWith (s p : jsstring) : bool :=
  startsWith (reverse s) (reverse p).

(** [s.replace(pat, rep)] with a string pattern: only the first occurrence
    of [pat] is replaced ([rep] holds no [$] pattern in this program). *)
Fixpoint replace_first (pat rep s : jsstring) : jsstring :=
  if startsWith s pat then rep ++ drop (length pat) s
  else match s with
       | [] => []
       | c :: s' => c :: replace_first pat rep s'
       end.

(** [s.replace(/c/g, rep)] for a one-character pattern [c]. *)
Definition replace_all_char (c : N) (rep : jsstring) (s : jsstring) : jsstring :=
  s ≫= (λ x, if decide (x = c) then rep else [x]).

(** [s.replace(/^c/, '')]: one leading [c] is removed. *)
Definition strip_leading_char (c : N) (s : jsstring) : jsstring :=
  match s with
  | x :: s' => if decide (x = c) then s' else s
  | [] => []
  end.

(** [s.replace(/p+/g, rep)] for a character class [p]: every maximal run of
    characters of the class becomes one [rep].  [in_run] tells that the
    previous character belonged to the run being replaced. *)
Fixpoint replace_runs (p : N → bool) (rep : jsstring) (in_run : bool)
    (s : jsstring) : jsstring :=
  match s with
  | [] => []
  | c :: s' =>
      if p c then
        if in_run then replace_runs p rep true s'
        else rep ++ replace_runs p rep true s'
      else c :: replace_runs p rep false s'
  end.

(** [s.split(sep)] for a one-character separator; the result is never
    empty (['' .split(sep)] is [['']]). *)
Fixpoint split_char (sep : N) (s : jsstring) : list jsstring :=
  match s with
  | [] => [[]]
  | c :: s' =>
      if decide (c = sep) then [] :: split_char sep s'
      else match split_char sep s' with
           | [] => [[c]]
           | w :: ws => (c :: w) :: ws
           end
  end.

(** [parts.join(sep)] *)
Fixpoint join (sep : jsstring) (parts : list jsstring) : jsstring :=
  match parts with
  | [] => []
  | [w] => w
  | w :: ws => w ++ sep ++ join sep ws
  end.

(** The decimal rendering of a non-negative integer in a template literal. *)
Definition decimal (n : nat) : jsstring :=
  lit (NilZero.string_of_uint (Nat.to_uint n)).

Definition LF : N := 10.
Definition SPACE : N := 32.
Definition SLASH : N := 47.
Definition UNDERSCORE : N := 95.

(** The class [\s] of ECMAScript regular expressions, which is also what
    [trim] removes: WhiteSpace (TAB, VT, FF, ZWNBSP and the space
    separators) and LineTerminator (LF, CR, LS, PS). *)
Definition isWhiteSpace (c : N) : bool :=
  bool_decide (c ∈ [9; 10; 11; 12; 13; 32; 160; 5760; 8232; 8233; 8239;
                    8287; 12288; 65279])
  || ((8192 <=? c) && (c <=? 8202)).

Definition isLF (c : N) : bool := bool_decide (c = LF).

Fixpoint trimStart (s : jsstring) : jsstring :=
  match s with
  | c :: s' => if isWhiteSpace c then trimStart s' else s
  | [] => []
  end.

(** [s.trim()] *)
Definition trim (s : jsstring) : jsstring :=
  reverse (trimStart (reverse (trimStart s))).

(** The order of [Array.prototype.sort()] without a comparator, on strings:
    by code units, a proper prefix first. *)
Fixpoint code_unit_le (a b : jsstring) : bool :=
  match a, b with
  | [], _ => true
  | _ :: _, [] => false
  | x :: a', y :: b' => (x <? y) || ((x =? y) && code_unit_le a' b')
  end.

(** ** The Content Extractor *)

(** [cleanText], lines 228-234. *)
Definition cleanText (text : jsstring) : jsstring :=
  if negb (truthy text) then []
  else replace_runs isLF [LF] false
         (replace_runs isWhiteSpace [SPACE] false (trim text)).

(** ** The runtime's [URL] class

    What the program uses of the WHATWG URL class: the two constructors
    (which raise a [TypeError] on an address that does not parse), the
    [hash] setter, and the [href] (also [toString()]), [pathname] and
    [hostname] getters. *)
Class URLClass := {
  URL : Type;
  URL_new : jsstring → option URL;
  URL_new_base : jsstring → jsstring → option URL;
  URL_set_hash : URL → jsstring → URL;
  URL_href : URL → jsstring;
  URL_pathname : URL → jsstring;
  URL_hostname : URL → jsstring
}.

(** The URL Standard's round trip: the serialisation of a parsed URL whose
    fragment was cleared parses to that same URL, and clearing a cleared
    fragment changes nothing. *)
Class URLReparse `{URLClass} : Prop := {
  reparse_href : ∀ s u,
    URL_new s = Some u →
    URL_new (URL_href (URL_set_hash u [])) = Some (URL_set_hash u []);
  set_hash_empty_twice : ∀ u,
    URL_set_hash (URL_set_hash u []) [] = URL_set_hash u []
}.

(** [try { body } catch (e) { handler }] *)
Definition try_catch {A} (body handler : option A) : option A :=
  match body with
  | Some v => Some v
  | None => handler
  end.

Section Program.
Context `{URLClass}.

(** ** The URL Normalizer *)

(** [removeFragment], lines 12-20, with its exceptions. *)
Definition removeFragment_js (urlString : jsstring) : option jsstring :=
  try_catch
    (parsedUrl ← URL_new urlString;
     let parsedUrl := URL_set_hash parsedUrl [] in
     Some (URL_href parsedUrl))
    (Some urlString).

(** [removeFragment] as the crawl loop calls it: the value it returns. *)
Definition removeFragment (urlString : jsstring) : jsstring :=
  match URL_new urlString with
  | Some parsedUrl => URL_href (URL_set_hash parsedUrl [])
  | None => urlString
  end.

(** ** File names *)

(** The page document's file name, lines 118-121; [None] when
    [new URL(normalizedUrl)] raises. *)
Definition pageFileName (normalizedUrl : jsstring) : option jsstring :=
  parsedUrl ← URL_new normalizedUrl;
  let fileName :=
    strip_leading_char UNDERSCORE (replace_all_char SLASH (lit "_") (URL_pathname parsedUrl)) in
  let fileName := if negb (truthy fileName) then lit "index" else fileName in
  let fileName :=
    if negb (endsWith fileName (lit ".md")) then fileName ++ lit ".md"
    else fileName in
  Some fileName.

(** The file name an index entry links to, lines 409-412. *)
Definition indexFileName (normalizedUrl : jsstring) : option jsstring :=
  parsedUrl ← URL_new normalizedUrl;
  let fileName :=
    strip_leading_char UNDERSCORE (replace_all_char SLASH (lit "_") (URL_pathname parsedUrl)) in
  let fileName := if negb (truthy fileName) then lit "index" else fileName in
  let fileName :=
    if negb (endsWith fileName (lit ".md")) then fileName ++ lit ".md"
    else fileName in
  Some fileName.

(** The derivation of the base name in the words of the specification:
    every path separator becomes an underscore, one leading underscore is
    stripped, the name is "index" when nothing is left, and ".md" is
    appended unless the name already ends with it. *)
Definition spec_baseName (pathComponent : jsstring) : jsstring :=
  let replaced :=
    (λ c, if decide (c = SLASH) then UNDERSCORE else c) <$> pathComponent in
  let stripped :=
    match replaced with
    | c :: rest => if decide (c = UNDERSCORE) then rest else replaced
    | [] => []
    end in
  let named := if decide (stripped = []) then lit "index" else stripped in
  if decide (lit ".md" `suffix_of` named) then named else named ++ lit ".md".

(** The screenshot's file name, line 143. *)
Definition screenshotName (fileName : jsstring) : jsstring :=
  replace_first (lit ".md") (lit ".png") fileName.

(** One entry of the index, the body of the loop of lines 404-415: the
    text of the link and the file it points to. *)
Definition indexEntry (originalUrls : gmap jsstring jsstring)
    (normalizedUrl : jsstring) : option (jsstring * jsstring) :=
  let originalUrl :=
    match originalUrls !! normalizedUrl with
    | Some o => if truthy o then o else normalizedUrl
    | None => normalizedUrl
    end in
  fileName ← indexFileName normalizedUrl;
  Some (originalUrl, lit "./" ++ fileName).

(** ** Link harvesting *)

(** [sameDomain], lines 152-165. *)
Definition sameDomain (baseUrl urlStr : jsstring) : bool :=
  default false
    (try_catch
       (if startsWith urlStr (lit "/") then Some true
        else
          base ← URL_new baseUrl;
          url ← URL_new_base urlStr baseUrl;
          Some (bool_decide (URL_hostname url = URL_hostname base)))
       (Some false)).

(** The first filter of line 169. *)
Definition schemeAllowed (href : jsstring) : bool :=
  truthy href
  && negb (startsWith href (lit "javascript:"))
  && negb (startsWith href (lit "mailto:")).

(** The links of a page, lines 167-170, from the [href] of each of its
    anchors in document order. *)
Definition pageLinks (baseUrl : jsstring) (hrefs : list jsstring) : list jsstring :=
  filter (λ href, sameDomain baseUrl href) (filter (λ href, schemeAllowed href) hrefs).

(** [[...new Set(links)]]: the first occurrence of each link, in order. *)
Fixpoint uniqueLinks (links : list jsstring) : list jsstring :=
  match links with
  | [] => []
  | link :: rest => link :: filter (λ l, l ≠ link) (uniqueLinks rest)
  end.

(** ** The document tree *)

(** A node of the rendered document.  An element carries its lower-cased
    tag name ([element.tagName.toLowerCase()]), its attributes, the
    [display] and [visibility] of its computed style, and its child nodes;
    the other nodes are text nodes and the rest (comments and the like),
    which the extractor passes over. *)
#[warnings="-register-all"]
Inductive Node :=
| Element (tagName : jsstring) (attributes : list (jsstring * jsstring))
    (display visibility : jsstring) (childNodes : list Node)
| Text (data : jsstring)
| Comment (data : jsstring).

(** [node.textContent]: the text of the text nodes below an element, in
    document order; the data of a text or comment node. *)
Fixpoint textContent (n : Node) : jsstring :=
  match n with
  | Element _ _ _ _ kids =>
      (fix below (l : list Node) : jsstring :=
         match l with
         | [] => []
         | Comment _ :: l' => below l'
         | k :: l' => textContent k ++ below l'
         end) kids
  | Text d => d
  | Comment d => d
  end.

(** [element.getAttribute(name)] *)
Fixpoint getAttribute (attrs : list (jsstring * jsstring)) (name : jsstring)
    : option jsstring :=
  match attrs with
  | [] => None
  | (k, v) :: attrs' => if decide (k = name) then Some v else getAttribute attrs' name
  end.

Definition tagOf (n : Node) : option jsstring :=
  match n with
  | Element t _ _ _ _ => Some t
  | _ => None
  end.

(** [element.children]: the child nodes that are elements. *)
Definition children (kids : list Node) : list Node :=
  filter (λ k, is_Some (tagOf k)) kids.

Definition skipTags : list jsstring :=
  lit <$> ["script"; "style"; "noscript"; "svg"; "nav"; "footer"; "iframe"]%string.

Definition containerTags : list jsstring :=
  lit <$> ["div"; "section"; "article"; "main"; "aside"; "header"; "span"]%string.

(** The items of an unordered list, lines 277-283. *)
Definition ulItems (kids : list Node) : jsstring :=
  foldl (λ ulItems child,
           if decide (tagOf child = Some (lit "li"))
           then ulItems ++ lit "* " ++ cleanText (textContent child) ++ [LF]
           else ulItems)
        [] (children kids).

(** The items of an ordered list, lines 285-291: [forEach] hands the
    callback each child with its index [i] in [element.children]. *)
Definition olItems (kids : list Node) : jsstring :=
  foldl (λ olItems '(i, child),
           if decide (tagOf child = Some (lit "li"))
           then olItems ++ decimal (i + 1) ++ lit ". "
                  ++ cleanText (textContent child) ++ [LF]
           else olItems)
        [] (imap (λ i child, (i, child)) (children kids)).

Definition isListItem (n : Node) : bool := bool_decide (tagOf n = Some (lit "li")).

(** The line of an ordered list for the list item [child] numbered [n]. *)
Definition olLine (n : nat) (child : Node) : jsstring :=
  decimal n ++ lit ". " ++ cleanText (textContent child) ++ [LF].

Definition heading (level : nat) (element : Node) : jsstring :=
  replicate level 35 ++ lit " " ++ cleanText (textContent element) ++ [LF; LF].

(** [elementToMarkdown], lines 239-360; [None] when it raises (a relative
    address that does not resolve, or a node that is no element, whose
    computed style cannot be taken). *)
Fixpoint elementToMarkdown (baseUrl : jsstring) (element : Node) : option jsstring :=
  match element with
  | Text _ | Comment _ => None
  | Element tagName attrs display visibility childNodes =>
      let walk :=
        (fix walk (l : list Node) : option jsstring :=
           match l with
           | [] => Some []
           | child :: l' =>
               piece ← match child with
                       | Element _ _ _ _ _ => elementToMarkdown baseUrl child
                       | Text _ =>
                           let text := cleanText (textContent child) in
                           Some (if truthy text then text ++ lit " " else [])
                       | Comment _ => Some []
                       end;
               rest ← walk l';
               Some (piece ++ rest)
           end) in
      if bool_decide (display = lit "none") || bool_decide (visibility = lit "hidden")
      then Some []
      else if bool_decide (tagName ∈ skipTags) then Some []
      else if bool_decide (tagName = lit "h1") then Some (heading 1 element)
      else if bool_decide (tagName = lit "h2") then Some (heading 2 element)
      else if bool_decide (tagName = lit "h3") then Some (heading 3 element)
      else if bool_decide (tagName = lit "h4") then Some (heading 4 element)
      else if bool_decide (tagName = lit "h5") then Some (heading 5 element)
      else if bool_decide (tagName = lit "h6") then Some (heading 6 element)
      else if bool_decide (tagName = lit "p") then
        let text := cleanText (textContent element) in
        Some (if truthy text then text ++ [LF; LF] else [])
      else if bool_decide (tagName = lit "ul") then
        let ulItems := ulItems childNodes in
        Some (if truthy ulItems then ulItems ++ [LF] else [])
      else if bool_decide (tagName = lit "ol") then
        let olItems := olItems childNodes in
        Some (if truthy olItems then olItems ++ [LF] else [])
      else if bool_decide (tagName = lit "a") then
        match getAttribute attrs (lit "href") with
        | Some href =>
            if truthy href
               && negb (startsWith href (lit "javascript:"))
               && negb (startsWith href (lit "mailto:"))
            then
              absoluteUrl ← URL_href <$> URL_new_base href baseUrl;
              Some (lit "[" ++ cleanText (textContent element) ++ lit "]("
                      ++ absoluteUrl ++ lit ")")
            else Some (cleanText (textContent element))
        | None => Some (cleanText (textContent element))
        end
      else if bool_decide (tagName = lit "img") then
        let alt := match getAttribute attrs (lit "alt") with
                   | Some alt => alt
                   | None => []
                   end in
        match getAttribute attrs (lit "src") with
        | Some src =>
            if truthy src then
              absoluteSrc ← URL_href <$> URL_new_base src baseUrl;
              Some (lit "![" ++ alt ++ lit "](" ++ absoluteSrc ++ lit ")")
            else Some []
        | None => Some []
        end
      else if bool_decide (tagName = lit "code") || bool_decide (tagName = lit "pre") then
        Some (lit "```" ++ [LF] ++ textContent element ++ [LF] ++ lit "```" ++ [LF; LF])
      else if bool_decide (tagName = lit "blockquote") then
        let quote := cleanText (textContent element) in
        Some (join [LF] ((λ line, lit "> " ++ line) <$> split_char LF quote)
                ++ [LF; LF])
      else if bool_decide (tagName = lit "hr") then Some (lit "---" ++ [LF; LF])
      else if bool_decide (tagName = lit "br") then Some [LF]
      else if bool_decide (tagName = lit "table") then
        Some ([91; 34920; 12399; 30465; 30053; 12373; 12428; 12414; 12375; 12383; 93]
                ++ [LF; LF])
      else if bool_decide (tagName ∈ containerTags) then walk childNodes
      else
        if bool_decide (0 < length childNodes)%nat then walk childNodes
        else Some (cleanText (textContent element))
  end.

(** ** The crawl loop *)

(** The run metadata, lines 44-50 (the time stamps are left out). *)
Record Metadata := {
  startUrl : jsstring;
  maxDepth : Z;
  pagesScraped : nat;
  markdownFiles : nat
}.

(** What the browser does with one page, as far as the loop can tell
    ([page.close()] is taken not to raise). *)
Inductive PageOutcome :=
| RendererFails
    (** [browser.newPage()] or [setUserAgent] raises, outside the page's [try] *)
| PageFails
    (** [goto], a metadata or content [evaluate], or the write of the
        document raises *)
| ScreenshotFails
    (** the document is written and [page.screenshot] raises *)
| LinkQueryFails
    (** the screenshot is taken and the [evaluate] of lines 151-171 raises *)
| PageCompletes (hrefs : list jsstring)
    (** nothing raises; [hrefs] are the [a.href] of the page's anchors *).

(** Where the control is. *)
Inductive Phase :=
| AtLoopHead
    (** line 68, before the test of the queue *)
| InPage (currentUrl : jsstring) (depth : Z) (normalizedUrl : jsstring)
    (** line 98, the page is open *)
| Written (currentUrl : jsstring) (depth : Z) (fileName : jsstring)
    (** line 140, the document is written *)
| Finished (index : option (list (jsstring * jsstring)))
    (** line 191 onwards: the entries of the index, or [None] when
        [createIndexMarkdown] raised *)
| Aborted
    (** line 208, an exception reached the outer [catch] *).

(** A page document, by its file name and the fields of its front matter
    that the loop decides (lines 124-137); the title, the description, the
    date and the body are the browser's and the clock's. *)
Record Document := {
  doc_fileName : jsstring;
  doc_url : jsstring;
  doc_normalizedUrl : jsstring;
  doc_depth : Z
}.

Record Crawl := {
  urlQueue : list (jsstring * Z);
  visitedUrls : gset jsstring;
  originalUrls : gmap jsstring jsstring;
  metadata : Metadata;
  processed : list (jsstring * Z);
    (** the entries announced by the [console.log] of line 85, oldest first *)
  documents : list Document;
    (** the documents written by line 137, oldest first *)
  screenshots : list jsstring;
    (** the file names written by lines 144-147, oldest first *)
  phase : Phase
}.

Definition at_phase (p : Phase) (s : Crawl) : Crawl :=
  {| urlQueue := urlQueue s; visitedUrls := visitedUrls s;
     originalUrls := originalUrls s; metadata := metadata s;
     processed := processed s; documents := documents s;
     screenshots := screenshots s; phase := p |}.

(** [createIndexMarkdown], lines 401-415: the entries of the index. *)
Definition createIndexMarkdown (visitedUrls : gset jsstring)
    (originalUrls : gmap jsstring jsstring) : option (list (jsstring * jsstring)) :=
  let urls := merge_sort (λ a b, code_unit_le a b) (elements visitedUrls) in
  mapM (indexEntry originalUrls) urls.

(** Lines 175-181. *)
Definition enqueueLinks (visitedUrls : gset jsstring) (depth : Z)
    (urlQueue : list (jsstring * Z)) (links : list jsstring) : list (jsstring * Z) :=
  foldl (λ urlQueue link,
           let normalizedLink := removeFragment link in
           if decide (normalizedLink ∈ visitedUrls) then urlQueue
           else urlQueue ++ [(link, depth + 1)%Z])
        urlQueue links.

Section Loop.
(** The browser: what happens to the [n]-th page the run opens, at the
    address it is opened at. *)
Variable browser : nat → jsstring → PageOutcome.

(** The state of [scrapeToMarkdown] at line 68, lines 29-65. *)
Definition start (targetUrl : jsstring) (maxDepth : Z) : Crawl :=
  let targetUrl := removeFragment targetUrl in
  {| urlQueue := [(targetUrl, 0%Z)];
     visitedUrls := ∅;
     originalUrls := {[ targetUrl := targetUrl ]};
     metadata := {| startUrl := targetUrl; maxDepth := maxDepth;
                    pagesScraped := 0; markdownFiles := 0 |};
     processed := []; documents := []; screenshots := [];
     phase := AtLoopHead |}.

(** Lines 68-96: the head entry leaves the queue and is skipped or opened. *)
Definition dequeue (s : Crawl) : Crawl :=
  match urlQueue s with
  | [] => at_phase (Finished (createIndexMarkdown (visitedUrls s) (originalUrls s))) s
  | (currentUrl, depth) :: rest =>
      let normalizedUrl := removeFragment currentUrl in
      let m := metadata s in
      if decide (normalizedUrl ∈ visitedUrls s) then
        {| urlQueue := rest; visitedUrls := visitedUrls s;
           originalUrls := originalUrls s; metadata := m;
           processed := processed s; documents := documents s;
           screenshots := screenshots s; phase := AtLoopHead |}
      else if (depth >? maxDepth m)%Z then
        {| urlQueue := rest; visitedUrls := visitedUrls s;
           originalUrls := originalUrls s; metadata := m;
           processed := processed s; documents := documents s;
           screenshots := screenshots s; phase := AtLoopHead |}
      else
        let n := S (pagesScraped m) in
        {| urlQueue := rest;
           visitedUrls := {[ normalizedUrl ]} ∪ visitedUrls s;
           originalUrls := <[ normalizedUrl := currentUrl ]> (originalUrls s);
           metadata := {| startUrl := startUrl m; maxDepth := maxDepth m;
                          pagesScraped := n; markdownFiles := markdownFiles m |};
           processed := processed s ++ [(currentUrl, depth)];
           documents := documents s; screenshots := screenshots s;
           phase := match browser n currentUrl with
                    | RendererFails => Aborted
                    | _ => InPage currentUrl depth normalizedUrl
                    end |}
  end.

(** Lines 98-140: the page is rendered and its document written, or an
    exception takes the control to line 183 and on to the next entry. *)
Definition render (currentUrl : jsstring) (depth : Z) (normalizedUrl : jsstring)
    (s : Crawl) : Crawl :=
  let m := metadata s in
  match browser (pagesScraped m) currentUrl with
  | RendererFails | PageFails => at_phase AtLoopHead s
  | ScreenshotFails | LinkQueryFails | PageCompletes _ =>
      match pageFileName normalizedUrl with
      | None => at_phase AtLoopHead s
      | Some fileName =>
          {| urlQueue := urlQueue s; visitedUrls := visitedUrls s;
             originalUrls := originalUrls s;
             metadata := {| startUrl := startUrl m; maxDepth := maxDepth m;
                            pagesScraped := pagesScraped m;
                            markdownFiles := S (markdownFiles m) |};
             processed := processed s;
             documents :=
               documents s ++ [{| doc_fileName := fileName; doc_url := currentUrl;
                                  doc_normalizedUrl := normalizedUrl;
                                  doc_depth := depth |}];
             screenshots := screenshots s;
             phase := Written currentUrl depth fileName |}
      end
  end.

(** Lines 142-187: the screenshot, and the links when [depth < maxDepth]. *)
Definition harvest (currentUrl : jsstring) (depth : Z) (fileName : jsstring)
    (s : Crawl) : Crawl :=
  let m := metadata s in
  match browser (pagesScraped m) currentUrl with
  | RendererFails | PageFails | ScreenshotFails => at_phase AtLoopHead s
  | (LinkQueryFails | PageCompletes _) as outcome =>
      let urlQueue' :=
        if (depth <? maxDepth m)%Z then
          match outcome with
          | PageCompletes hrefs =>
              let links := pageLinks currentUrl hrefs in
              enqueueLinks (visitedUrls s) depth (urlQueue s) (uniqueLinks links)
          | _ => urlQueue s
          end
        else urlQueue s in
      {| urlQueue := urlQueue'; visitedUrls := visitedUrls s;
         originalUrls := originalUrls s; metadata := m;
         processed := processed s; documents := documents s;
         screenshots := screenshots s ++ [screenshotName fileName];
         phase := AtLoopHead |}
  end.

(** One step of the run. *)
Definition step (s : Crawl) : Crawl :=
  match phase s with
  | AtLoopHead => dequeue s
  | InPage currentUrl depth normalizedUrl => render currentUrl depth normalizedUrl s
  | Written currentUrl depth fileName => harvest currentUrl depth fileName s
  | Finished _ | Aborted => s
  end.

(** The state [n] steps after [s]. *)
Definition run (n : nat) (s : Crawl) : Crawl := Nat.iter n step s.

(** [scrapeToMarkdown(targetUrl, maxDepth)], lines 27-213: the state of the
    call after [n] steps. *)
Definition scrapeToMarkdown (targetUrl : jsstring) (maxDepth : Z) (n : nat) : Crawl :=
  run n (start targetUrl maxDepth).

End Loop.

(** ** The invariant of the loop *)

(** The normalized address of a frontier entry. *)
Definition normalized (entry : jsstring * Z) : jsstring := removeFragment entry.1.

(** What holds of every state of a run to the depth [maxDepth0]. *)
Record invariant (maxDepth0 : Z) (s : Crawl) : Prop := {
  inv_maxDepth : maxDepth (metadata s) = maxDepth0;
  inv_once : NoDup (normalized <$> processed s);
  inv_visited : ∀ entry, entry ∈ processed s → normalized entry ∈ visitedUrls s;
  inv_depth : Forall (λ entry, (entry.2 ≤ maxDepth0)%Z) (processed s);
  inv_queue : Forall (λ entry, (entry.2 ≤ Z.max 0 maxDepth0)%Z) (urlQueue s);
  inv_opened : pagesScraped (metadata s) = length (processed s);
  inv_written : markdownFiles (metadata s) = length (documents s);
  inv_counters :
    match phase s with
    | InPage _ _ _ => (length (documents s) < length (processed s))%nat
    | _ => (length (documents s) ≤ length (processed s))%nat
    end;
  inv_documents : ∀ d, d ∈ documents s →
    pageFileName (doc_normalizedUrl d) = Some (doc_fileName d)
    ∧ doc_normalizedUrl d ∈ visitedUrls s;
  inv_phase :
    match phase s with
    | InPage currentUrl depth normalizedUrl =>
        normalizedUrl = removeFragment currentUrl
        ∧ normalizedUrl ∈ visitedUrls s ∧ (depth ≤ maxDepth0)%Z
    | Written _ depth _ => (depth ≤ maxDepth0)%Z
    | Finished index => index = createIndexMarkdown (visitedUrls s) (originalUrls s)
    | _ => True
    end
}.

End Program.

(** ** A reference implementation of the [URL] class

    An implementation for the addresses [scheme://host/path?query#fragment]
    that the URL Standard leaves as they are: a lower-case scheme and host,
    no port or user information, and a path, query and fragment with no
    dot segment and no character to escape; on these it returns what the
    Standard does.  It folds no case, escapes nothing and removes no dot
    segment, and it refuses a string with no [scheme://host].  The
    scenarios are evaluated on it, and it shows that the round trip
    [URLReparse] can be kept. *)
Module SimpleURL.

Record url := {
  scheme : jsstring;
  host : jsstring;
  path : jsstring;
  query : option jsstring;
  fragment : option jsstring
}.

(** The text before the first [c], and the text after it when there is one. *)
Fixpoint cut (c : N) (s : jsstring) : jsstring * option jsstring :=
  match s with
  | [] => ([], None)
  | x :: s' =>
      if decide (x = c) then ([], Some s')
      else let '(a, b) := cut c s' in (x :: a, b)
  end.

Definition HASH : N := 35.
Definition QUESTION : N := 63.
Definition COLON : N := 58.

Definition is_lower (c : N) : bool := (97 <=? c) && (c <=? 122).
Definition is_digit (c : N) : bool := (48 <=? c) && (c <=? 57).
Definition host_char (c : N) : bool :=
  is_lower c || is_digit c || (c =? 45) || (c =? 46).

Definition with_suffix (mark : N) (part : option jsstring) : jsstring :=
  match part with
  | Some p => mark :: p
  | None => []
  end.

Definition parse (s : jsstring) : option url :=
  let '(s, fragment) := cut HASH s in
  let '(s, query) := cut QUESTION s in
  match cut COLON s with
  | (scheme, Some rest) =>
      if truthy scheme && forallb is_lower scheme && startsWith rest (lit "//") then
        let '(host, path) := cut SLASH (drop 2 rest) in
        if truthy host && forallb host_char host then
          Some {| scheme := scheme; host := host;
                  path := SLASH :: default [] path;
                  query := query; fragment := fragment |}
        else None
      else None
  | (_, None) => None
  end.

Definition href (u : url) : jsstring :=
  scheme u ++ lit "://" ++ host u ++ path u
    ++ with_suffix QUESTION (query u) ++ with_suffix HASH (fragment u).

Definition set_hash (u : url) (value : jsstring) : url :=
  {| scheme := scheme u; host := host u; path := path u; query := query u;
     fragment := if truthy value then Some (strip_leading_char HASH value)
                 else None |}.

(** The text from the first [/] of [s] on. *)
Fixpoint from_slash (s : jsstring) : jsstring :=
  match s with
  | c :: s' => if decide (c = SLASH) then s else from_slash s'
  | [] => []
  end.

(** The directory of a path: the path up to its last [/]. *)
Definition directory (p : jsstring) : jsstring :=
  reverse (from_slash (reverse p)).

(** A reference with no scheme is read against the base: a path that
    starts with [/] replaces the base's path, a query or a fragment alone
    is put on the base's path, and any other path is read from the
    directory of the base's path.  A reference with a scheme that [parse]
    refuses is refused. *)
Definition parse_base (s base : jsstring) : option url :=
  match parse s with
  | Some u => Some u
  | None =>
      b ← parse base;
      let '(s1, fragment) := cut HASH s in
      let '(p, query) := cut QUESTION s1 in
      if bool_decide (COLON ∈ p) then None
      else if startsWith p (lit "//") then parse (scheme b ++ [COLON] ++ s)
      else if startsWith p (lit "/") then
        Some {| scheme := scheme b; host := host b; path := p;
                query := query; fragment := fragment |}
      else if truthy p then
        Some {| scheme := scheme b; host := host b; path := directory (path b) ++ p;
                query := query; fragment := fragment |}
      else
        Some {| scheme := scheme b; host := host b; path := path b;
                query := match query with Some q => Some q | None => SimpleURL.query b end;
                fragment := fragment |}
  end.

(** What [parse] guarantees of the URL it returns. *)
Record wf (u : url) : Prop := {
  wf_scheme : (truthy (scheme u) && forallb is_lower (scheme u)) = true;
  wf_host : (truthy (host u) && forallb host_char (host u)) = true;
  wf_path : ∃ p, path u = SLASH :: p ∧ (QUESTION ∉ p) ∧ (HASH ∉ p);
  wf_query : ∀ q, query u = Some q → HASH ∉ q
}.

#[export] Instance simple_url : URLClass := {|
  URL := url;
  URL_new := parse;
  URL_new_base := parse_base;
  URL_set_hash := set_hash;
  URL_href := href;
  URL_pathname := path;
  URL_hostname := host
|}.

End SimpleURL.


(** ** Scenarios *)

Module Scenario.
Import SimpleURL.

Definition visibleElement (tag : string) (childNodes : list Node) : Node :=
  Element (lit tag) [] (lit "block") (lit "visible") childNodes.

(** [<ol><li>A</li><script></script><li>B</li></ol>] *)
Definition orderedList : Node :=
  visibleElement "ol"
    [visibleElement "li" [Text (lit "A")];
     Element (lit "script") [] (lit "none") (lit "visible") [];
     visibleElement "li" [Text (lit "B")]].

(** [<blockquote>To be,\n  or not</blockquote>] *)
Definition quotation : Node :=
  visibleElement "blockquote" [Text (lit "To be," ++ [LF] ++ lit "  or not")].

Definition seed : jsstring := lit "https://example.com".

(** A browser on which every navigation fails. *)
Definition offline : nat → jsstring → PageOutcome := λ _ _, PageFails.

(** A site of three pages: the first links to the second, to a fragment
    of the second, to another host and to a mail address; the second
    links to a fragment of the first and to the third, which has no
    link.  Every other address fails. *)
Definition site : nat → jsstring → PageOutcome := λ _ address,
  if decide (address = lit "https://example.com/") then
    PageCompletes [lit "https://example.com/about";
                   lit "https://example.com/about#team";
                   lit "https://other.org/";
                   lit "mailto:info@example.com"]
  else if decide (address = lit "https://example.com/about") then
    PageCompletes [lit "https://example.com/#top"; lit "https://example.com/notes.md.html"]
  else if decide (address = lit "https://example.com/notes.md.html") then
    PageCompletes []
  else PageFails.

End Scenario.

(** ** Further notions

    The notions in which the further properties of the extractor and of
    the crawl loop are stated. *)

Section MoreExtractor.
Context `{URLClass}.

(** The addresses that [elementToMarkdown] may resolve below a node: the
    [href] of the anchors that passes the test of line 294 and the
    non-empty [src] of the images. *)
Fixpoint references (n : Node) : list jsstring :=
  match n with
  | Element tagName attrs _ _ kids =>
      (if bool_decide (tagName = lit "a") then
         filter (λ href, schemeAllowed href) (option_list (getAttribute attrs (lit "href")))
       else if bool_decide (tagName = lit "img") then
         filter (λ src, truthy src) (option_list (getAttribute attrs (lit "src")))
       else [])
      ++ (fix below (l : list Node) : list jsstring :=
            match l with
            | [] => []
            | k :: l' => references k ++ below l'
            end) kids
  | Text _ | Comment _ => []
  end.

End MoreExtractor.

(** In [spaced after_space s] the only white space of [s] is the space,
    no space follows another, and none begins [s] when [after_space]. *)
Fixpoint spaced (after_space : bool) (s : jsstring) : bool :=
  match s with
  | [] => true
  | c :: s' =>
      if isWhiteSpace c then bool_decide (c = SPACE) && negb after_space && spaced true s'
      else spaced false s'
  end.

Section MoreLoop.
Context `{URLClass}.

(** A run is over in the phases [Finished] and [Aborted]. *)
Definition terminal (s : Crawl) : bool :=
  match phase s with
  | Finished _ | Aborted => true
  | _ => false
  end.

(** The entry was harvested from one of the [pages]: it is one level
    below a page on which it passed the two filters of lines 169-170. *)
Definition harvested (pages : list (jsstring * Z)) (entry : jsstring * Z) : Prop :=
  ∃ page, page ∈ pages
          ∧ entry.2 = (page.2 + 1)%Z
          ∧ schemeAllowed entry.1 = true
          ∧ sameDomain page.1 entry.1 = true.

(** The order of the entries by depth. *)
Definition shallower (a b : jsstring * Z) : Prop := (a.2 ≤ b.2)%Z.

(** The screenshot names of documents. *)
Definition screenshotNames (docs : list Document) : list jsstring :=
  (λ d, screenshotName (doc_fileName d)) <$> docs.

(** The frontier entry that a document was written for. *)
Definition documentEntry (d : Document) : jsstring * Z := (doc_url d, doc_depth d).

(** What the loop keeps of its books, in a run from the (normalized)
    address [seed]. *)
Record ledger (seed : jsstring) (s : Crawl) : Prop := {
  led_visited : visitedUrls s = list_to_set (normalized <$> processed s);
  led_original : ∀ entry, entry ∈ processed s →
    originalUrls s !! normalized entry = Some entry.1;
  led_order : StronglySorted shallower (processed s ++ urlQueue s);
  led_window :
    match phase s with
    | InPage _ depth _ | Written _ depth _ =>
        Forall (λ entry, (entry.2 ≤ depth + 1)%Z) (urlQueue s)
    | _ =>
        match urlQueue s with
        | [] => True
        | next :: _ => Forall (λ entry, (entry.2 ≤ next.2 + 1)%Z) (urlQueue s)
        end
    end;
  led_current :
    match phase s with
    | InPage currentUrl depth _ | Written currentUrl depth _ =>
        last (processed s) = Some (currentUrl, depth)
    | _ => True
    end;
  led_origin :
    Forall (λ entry, entry = (seed, 0%Z) ∨ harvested (processed s) entry)
      (processed s ++ urlQueue s);
  led_depths : Forall (λ entry, (0 ≤ entry.2)%Z) (processed s ++ urlQueue s);
  led_normalized :
    match phase s with
    | InPage currentUrl _ normalizedUrl => normalizedUrl = removeFragment currentUrl
    | _ => True
    end;
  led_documents :
    Forall (λ d, doc_normalizedUrl d = removeFragment (doc_url d)) (documents s)
    ∧ match phase s with
      | InPage currentUrl depth _ =>
          ∃ before, processed s = before ++ [(currentUrl, depth)]
                    ∧ documentEntry <$> documents s `sublist_of` before
      | _ => documentEntry <$> documents s `sublist_of` processed s
      end;
  led_shots :
    match phase s with
    | Written _ _ fileName =>
        ∃ docs d, documents s = docs ++ [d] ∧ doc_fileName d = fileName
                  ∧ screenshots s `sublist_of` screenshotNames docs
    | _ => screenshots s `sublist_of` screenshotNames (documents s)
    end
}.

(** The entry of the index for a processed frontier entry, when the file
    name of its normalized address is [fileName]. *)
Definition indexLine (entry : jsstring * Z) (fileName : jsstring) : jsstring * jsstring :=
  (if truthy entry.1 then entry.1 else normalized entry, lit "./" ++ fileName).


End MoreLoop.

Section Ending.
Context `{URLClass}.
Variable browser : nat → jsstring → PageOutcome.


End Ending.

(** ** More scenarios *)

Module MoreScenario.
Import SimpleURL Scenario.

(** [<ul><li>tea</li>milk<li>two  eggs</li></ul>] *)
Definition shoppingList : Node :=
  visibleElement "ul"
    [visibleElement "li" [Text (lit "tea")];
     Text (lit "milk");
     visibleElement "li" [Text (lit "two  eggs")]].

(** [<ol><li>A</li> <li>B</li></ol>] *)
Definition recipe : Node :=
  visibleElement "ol"
    [visibleElement "li" [Text (lit "A")];
     Text (lit " ");
     visibleElement "li" [Text (lit "B")]].

(** [<div><a href="/about">About</a><img src="logo.png" alt="logo"></div>] *)
Definition banner : Node :=
  visibleElement "div"
    [Element (lit "a") [(lit "href", lit "/about")] (lit "inline") (lit "visible")
       [Text (lit "About")];
     Element (lit "img") [(lit "src", lit "logo.png"); (lit "alt", lit "logo")]
       (lit "inline") (lit "visible") []].

(** The links of the first page of the site. *)
Definition homeLinks : list jsstring :=
  [lit "https://example.com/about"; lit "https://example.com/about#team";
   lit "https://other.org/"; lit "mailto:info@example.com"].

End MoreScenario.

(** The tests on a tag name that is known are evaluated. *)
Ltac decide_tags :=
  repeat match goal with
    | |- context [bool_decide ?P] =>
        let b := eval vm_compute in (bool_decide P) in
        change (bool_decide P) with b
    end;
  cbn [orb andb negb].

(** * Properties *)

Arguments lit : simpl never.
Arguments decimal : simpl never.
Arguments cleanText : simpl never.

(** ** Strings *)

Lemma startsWith_prefix (s p : jsstring) :
  startsWith s p = true ↔ p `prefix_of` s.
Proof.
  revert s; induction p as [|a p IH]; intros [|b s]; simpl.
  - split; [intros _; apply prefix_nil | done].
  - split; [intros _; apply prefix_nil | done].
  - split; [done | intros Hp; by apply prefix_nil_inv in Hp].
  - case_decide as Hab.
    + subst b. etrans; [apply IH|].
      split; [apply prefix_cons | apply prefix_cons_inv_2].
    + split; [done | intros Hp; by apply prefix_cons_inv_1 in Hp].
Qed.

Lemma startsWith_app (p s : jsstring) : startsWith (p ++ s) p = true.
Proof. apply startsWith_prefix. by apply prefix_app_r. Qed.

Lemma endsWith_suffix (s p : jsstring) :
  endsWith s p = true ↔ p `suffix_of` s.
Proof. unfold endsWith. by rewrite startsWith_prefix, <- suffix_prefix_reverse. Qed.

Lemma replace_all_char_fmap (c r : N) (s : jsstring) :
  replace_all_char c [r] s = (λ x, if decide (x = c) then r else x) <$> s.
Proof.
  unfold replace_all_char. induction s as [|x s IH]; [done|].
  cbn. rewrite <- IH. by destruct (decide (x = c)).
Qed.

Lemma replace_runs_Forall (P : N → Prop) p rep in_run (s : jsstring) :
  Forall P rep →
  Forall (λ c, p c = false → P c) s →
  Forall P (replace_runs p rep in_run s).
Proof.
  intros Hrep Hs. revert in_run.
  induction Hs as [|c s Hc _ IH]; intros in_run; simpl; [constructor|].
  destruct (p c) eqn:Hp.
  - destruct in_run; [apply IH|]. apply Forall_app; split; [done | apply IH].
  - constructor; [by apply Hc | apply IH].
Qed.

Lemma replace_runs_none p rep in_run (s : jsstring) :
  Forall (λ c, p c = false) s → replace_runs p rep in_run s = s.
Proof.
  intros Hs. revert in_run.
  induction Hs as [|c s Hc _ IH]; intros in_run; simpl; [done|].
  by rewrite Hc, IH.
Qed.

Lemma isWhiteSpace_LF (c : N) : isWhiteSpace c = false → c ≠ LF.
Proof. by intros Hc ->. Qed.

Lemma collapsed_no_LF in_run (s : jsstring) :
  Forall (λ c, c ≠ LF) (replace_runs isWhiteSpace [SPACE] in_run s).
Proof.
  apply replace_runs_Forall.
  - by constructor.
  - apply Forall_forall. intros c _. apply isWhiteSpace_LF.
Qed.

Lemma cleanText_collapsed (text : jsstring) :
  cleanText text =
    if truthy text then replace_runs isWhiteSpace [SPACE] false (trim text) else [].
Proof.
  unfold cleanText. destruct (truthy text); [|done]. simpl.
  apply replace_runs_none.
  eapply Forall_impl; [apply collapsed_no_LF|].
  intros c Hc. unfold isLF. by apply bool_decide_eq_false_2.
Qed.

Lemma cleanText_no_LF (text : jsstring) : Forall (λ c, c ≠ LF) (cleanText text).
Proof.
  rewrite cleanText_collapsed. destruct (truthy text); [|constructor].
  apply collapsed_no_LF.
Qed.

Lemma split_char_none sep (s : jsstring) :
  Forall (λ c, c ≠ sep) s → split_char sep s = [s].
Proof.
  induction 1 as [|c s Hc _ IH]; simpl; [done|].
  by rewrite decide_False, IH.
Qed.

Lemma join_singleton sep (w : jsstring) : join sep [w] = w.
Proof. done. Qed.

Lemma replace_first_unfold (pat rep s : jsstring) :
  replace_first pat rep s =
    if startsWith s pat then rep ++ drop (length pat) s
    else match s with
         | [] => []
         | c :: s' => c :: replace_first pat rep s'
         end.
Proof. by destruct s. Qed.

Lemma replace_first_at (pat rep a b : jsstring) :
  (∀ k, (k < length a)%nat → startsWith (drop k (a ++ pat ++ b)) pat = false) →
  replace_first pat rep (a ++ pat ++ b) = a ++ rep ++ b.
Proof.
  induction a as [|c a IH]; intros Hfirst; rewrite replace_first_unfold.
  - simpl. by rewrite startsWith_app, drop_app_length.
  - pose proof (Hfirst 0%nat ltac:(simpl; lia)) as H0.
    rewrite drop_0 in H0. rewrite H0. simpl.
    rewrite IH; [done|].
    intros k Hk. apply (Hfirst (S k)). simpl; lia.
Qed.

(** ** The Content Extractor *)

Lemma olItems_fold (k : nat → nat) (acc : jsstring) (l : list Node) :
  foldl (λ olItems '(i, child),
           if decide (tagOf child = Some (lit "li"))
           then olItems ++ decimal (i + 1) ++ lit ". "
                  ++ cleanText (textContent child) ++ [LF]
           else olItems)
        acc (imap (λ i child, (k i, child)) l)
  = acc ++ mjoin (imap (λ i child,
                          if isListItem child then olLine (k i + 1) child else []) l).
Proof.
  revert k acc. induction l as [|c l IH]; intros k acc; cbn [foldl imap mjoin list_join].
  - by rewrite app_nil_r.
  - unfold compose. rewrite (IH (λ i, k (S i))). unfold isListItem, olLine.
    destruct (decide (tagOf c = Some (lit "li"))) as [Hli|Hli].
    + rewrite (bool_decide_eq_true_2 _ Hli). by rewrite <- !app_assoc.
    + by rewrite (bool_decide_eq_false_2 _ Hli).
Qed.

(** What the code numbers a list item with: one more than its position
    among the element children of the list. *)
Lemma olItems_by_child_index (kids : list Node) :
  olItems kids =
    mjoin (imap (λ i child, if isListItem child then olLine (i + 1) child else [])
             (children kids)).
Proof. unfold olItems. by rewrite (olItems_fold (λ i, i)). Qed.

(** When every element child of the list is a list item, the number of an
    item is its position among the list items. *)
Lemma olItems_only_items (kids : list Node) :
  Forall (λ child, isListItem child = true) (children kids) →
  olItems kids = mjoin (imap (λ i child, olLine (i + 1) child) (children kids)).
Proof.
  intros Hall. rewrite olItems_by_child_index. f_equal.
  apply imap_ext. intros i child Hchild.
  rewrite Forall_lookup in Hall. by rewrite (Hall _ _ Hchild).
Qed.

Section ExtractorProperties.
Context `{URLClass}.

Lemma blockquote_rendering baseUrl attrs display visibility childNodes :
  display ≠ lit "none" →
  visibility ≠ lit "hidden" →
  let element := Element (lit "blockquote") attrs display visibility childNodes in
  elementToMarkdown baseUrl element =
    Some (lit "> " ++ cleanText (textContent element) ++ [LF; LF]).
Proof.
  intros Hdisplay Hvisibility element. subst element.
  cbn [elementToMarkdown].
  rewrite (bool_decide_eq_false_2 _ Hdisplay), (bool_decide_eq_false_2 _ Hvisibility).
  decide_tags.
  rewrite split_char_none by apply cleanText_no_LF.
  cbn [fmap list_fmap]. rewrite join_singleton. by rewrite <- app_assoc.
Qed.

(** C10: [cleanText] returns a string with no newline, because the
    collapse of the white space runs leaves none for the collapse of the
    newline runs, which is then the identity; so a blockquote that is not
    hidden is rendered as one line, ["> "] followed by its cleaned text,
    and two newlines. *)
Theorem cleanText_single_line :
  (∀ text : jsstring,
     Forall (λ c, c ≠ LF) (cleanText text)
     ∧ cleanText text =
         if truthy text then replace_runs isWhiteSpace [SPACE] false (trim text)
         else [])
  ∧ (∀ baseUrl attrs display visibility childNodes,
       display ≠ lit "none" →
       visibility ≠ lit "hidden" →
       let element := Element (lit "blockquote") attrs display visibility childNodes in
       let line := lit "> " ++ cleanText (textContent element) in
       Forall (λ c, c ≠ LF) line
       ∧ elementToMarkdown baseUrl element = Some (line ++ [LF; LF])).
Proof.
  split.
  - intros text. split; [apply cleanText_no_LF | apply cleanText_collapsed].
  - intros baseUrl attrs display visibility childNodes Hdisplay Hvisibility element line.
    split.
    + apply Forall_app. split; [by repeat constructor | apply cleanText_no_LF].
    + subst line. rewrite <- app_assoc. by apply blockquote_rendering.
Qed.

(** C5, at the list [<ol><li>A</li><script></script><li>B</li></ol>]: the
    second list item is numbered 3, its position among the element
    children of the list, and not 2, its position among the list items. *)
Theorem ordered_list_numbering_skips (baseUrl : jsstring) :
  elementToMarkdown baseUrl Scenario.orderedList =
    Some (lit "1. A" ++ [LF] ++ lit "3. B" ++ [LF; LF])
  ∧ elementToMarkdown baseUrl Scenario.orderedList ≠
      Some (lit "1. A" ++ [LF] ++ lit "2. B" ++ [LF; LF]).
Proof. split; [by vm_compute | by vm_compute]. Qed.

Lemma fileName_derivation (pathname : jsstring) :
  (let fileName :=
     strip_leading_char UNDERSCORE (replace_all_char SLASH (lit "_") pathname) in
   let fileName := if negb (truthy fileName) then lit "index" else fileName in
   if negb (endsWith fileName (lit ".md")) then fileName ++ lit ".md" else fileName)
  = spec_baseName pathname.
Proof.
  unfold spec_baseName. cbv zeta.
  change (lit "_") with [UNDERSCORE]. rewrite replace_all_char_fmap.
  set (replaced := _ <$> pathname).
  assert (strip_leading_char UNDERSCORE replaced =
            match replaced with
            | c :: rest => if decide (c = UNDERSCORE) then rest else replaced
            | [] => []
            end) as -> by done.
  set (stripped := match replaced with [] => [] | _ :: _ => _ end).
  assert ((if negb (truthy stripped) then lit "index" else stripped) =
            (if decide (stripped = []) then lit "index" else stripped)) as ->.
  { by destruct stripped. }
  set (named := if decide (stripped = []) then _ else _).
  destruct (endsWith named (lit ".md")) eqn:Hends; simpl.
  - apply endsWith_suffix in Hends. by rewrite decide_True.
  - rewrite decide_False; [done|]. intros Hs. apply endsWith_suffix in Hs. congruence.
Qed.

End ExtractorProperties.

(** ** The reference implementation of [URL] keeps the round trip *)

Module SimpleURLFacts.
Import SimpleURL.

Lemma cut_spec c (s a : jsstring) b :
  cut c s = (a, b) → (c ∉ a) ∧ s = a ++ with_suffix c b.
Proof.
  revert a b. induction s as [|x s IH]; intros a b; simpl.
  - intros [= <- <-]. split; [apply not_elem_of_nil | done].
  - case_decide as Hx.
    + intros [= <- <-]. subst x. split; [apply not_elem_of_nil | done].
    + destruct (cut c s) as [a' b'] eqn:Hcut. intros [= <- <-].
      destruct (IH a' b' eq_refl) as [Hnot ->].
      split; [|done]. rewrite not_elem_of_cons. split; [congruence | done].
Qed.

Lemma cut_app c (a : jsstring) b :
  c ∉ a → cut c (a ++ with_suffix c b) = (a, b).
Proof.
  induction a as [|x a IH]; intros Hnot; simpl.
  - destruct b as [b|]; simpl; [by rewrite decide_True | done].
  - apply not_elem_of_cons in Hnot as [Hx Ha].
    rewrite decide_False by congruence. by rewrite IH.
Qed.

Lemma forallb_excludes (p : N → bool) (c : N) (l : jsstring) :
  forallb p l = true → p c = false → c ∉ l.
Proof.
  intros Hall Hc Hin. rewrite forallb_forall in Hall.
  apply list_elem_of_In, Hall in Hin. congruence.
Qed.

Lemma separator_excludes (c : N) : c ≠ COLON → c ≠ SLASH → c ∉ lit "://".
Proof. intros Hcolon Hslash. change (lit "://") with [COLON; SLASH; SLASH]. set_solver. Qed.

Lemma not_elem_of_with_suffix c mark (b : option jsstring) (a : jsstring) :
  c ∉ a ++ with_suffix mark b → ∀ q, b = Some q → c ∉ q.
Proof.
  intros Hnot q ->. simpl in Hnot.
  rewrite not_elem_of_app, not_elem_of_cons in Hnot. tauto.
Qed.

Lemma parse_wf (s : jsstring) (u : url) : parse s = Some u → wf u.
Proof.
  unfold parse.
  destruct (cut HASH s) as [s1 fragment] eqn:Hhash.
  destruct (cut QUESTION s1) as [s2 query] eqn:Hquery.
  destruct (cut COLON s2) as [scheme [rest|]] eqn:Hcolon; [|done].
  destruct (truthy scheme && forallb is_lower scheme && startsWith rest (lit "//"))
    eqn:Hscheme; [|done].
  destruct (cut SLASH (drop 2 rest)) as [host path] eqn:Hslash.
  destruct (truthy host && forallb host_char host) eqn:Hhost; [|done].
  intros [= <-].
  apply cut_spec in Hhash as [Hnohash _].
  apply cut_spec in Hquery as [Hnoquestion ->].
  apply cut_spec in Hcolon as [_ ->].
  apply cut_spec in Hslash as [_ Hrest].
  apply andb_true_iff in Hscheme as [Hscheme Hslashes].
  apply startsWith_prefix in Hslashes as [tail ->].
  change (drop 2 (lit "//" ++ tail)) with tail in Hrest. subst tail.
  split; simpl; [done | done | | ].
  - exists (default [] path). split; [done|].
    destruct path as [p|]; cbn [with_suffix default] in *;
      [|split; apply not_elem_of_nil].
    clear -Hnohash Hnoquestion. set_solver.
  - by eapply not_elem_of_with_suffix.
Qed.

#[export] Instance simple_url_reparse : URLReparse.
Proof.
  split; [|done].
  intros s u Hparse. apply parse_wf in Hparse as [Hscheme Hhost Hpath Hquery].
  destruct u as [scheme host path query fragment]; simpl in *.
  destruct Hpath as (p & -> & Hpq & Hph).
  apply andb_true_iff in Hscheme as [Hs1 Hs2], Hhost as [Hh1 Hh2].
  unfold parse, href, set_hash.
  cbn [SimpleURL.scheme SimpleURL.host SimpleURL.path SimpleURL.query
       SimpleURL.fragment truthy with_suffix].
  rewrite app_nil_r.
  assert (HASH ∉ scheme ++ lit "://" ++ host ++ (SLASH :: p) ++ with_suffix QUESTION query)
    as Hnohash.
  { rewrite !not_elem_of_app, not_elem_of_cons.
    split_and!; try done.
    - by eapply forallb_excludes.
    - by apply separator_excludes.
    - by eapply forallb_excludes.
    - destruct query as [q|]; simpl; [|apply not_elem_of_nil].
      rewrite not_elem_of_cons. split; [done | by apply Hquery]. }
  pose proof (cut_app HASH _ None Hnohash) as Hcut1.
  cbn [with_suffix] in Hcut1. rewrite app_nil_r in Hcut1. rewrite Hcut1. clear Hcut1.
  assert (QUESTION ∉ scheme ++ lit "://" ++ host ++ SLASH :: p) as Hnoquestion.
  { rewrite !not_elem_of_app, not_elem_of_cons.
    split_and!; try done.
    - by eapply forallb_excludes.
    - by apply separator_excludes.
    - by eapply forallb_excludes. }
  pose proof (cut_app QUESTION _ query Hnoquestion) as Hcut2.
  rewrite <- !app_assoc in Hcut2. rewrite Hcut2. clear Hcut2.
  assert (COLON ∉ scheme) as Hnocolon by by eapply forallb_excludes.
  pose proof (cut_app COLON _ (Some (lit "//" ++ host ++ SLASH :: p)) Hnocolon) as Hcut3.
  change (scheme ++ with_suffix COLON (Some (lit "//" ++ host ++ SLASH :: p)))
    with (scheme ++ lit "://" ++ host ++ SLASH :: p) in Hcut3.
  rewrite Hcut3. clear Hcut3.
  rewrite Hs1, Hs2, startsWith_app.
  change (drop 2 (lit "//" ++ host ++ SLASH :: p)) with (host ++ with_suffix SLASH (Some p)).
  rewrite cut_app by by eapply forallb_excludes.
  by rewrite Hh1, Hh2.
Qed.

End SimpleURLFacts.

(** ** The URL Normalizer, the file names and the link filter *)

Section ProgramProperties.
Context `{URLClass}.

Lemma removeFragment_js_returns (x : jsstring) :
  removeFragment_js x = Some (removeFragment x).
Proof. unfold removeFragment_js, removeFragment. by destruct (URL_new x). Qed.

Lemma removeFragment_unparseable (x : jsstring) :
  URL_new x = None → removeFragment x = x.
Proof. unfold removeFragment. by intros ->. Qed.

(** C2: [removeFragment] raises on no string, returns a string that does
    not parse as it is, and is idempotent, on a [URL] class that keeps the
    URL Standard's round trip. *)
Theorem removeFragment_total_idempotent `{!URLReparse} (x : jsstring) :
  removeFragment_js x = Some (removeFragment x)
  ∧ (URL_new x = None → removeFragment x = x)
  ∧ removeFragment (removeFragment x) = removeFragment x.
Proof.
  split; [apply removeFragment_js_returns|].
  split; [apply removeFragment_unparseable|].
  unfold removeFragment at 2 3. destruct (URL_new x) as [u|] eqn:Hparse.
  - unfold removeFragment. rewrite (reparse_href x u Hparse).
    by rewrite set_hash_empty_twice.
  - by rewrite !removeFragment_unparseable.
Qed.

Lemma sameDomain_relative (baseUrl urlStr : jsstring) :
  startsWith urlStr (lit "/") = true → sameDomain baseUrl urlStr = true.
Proof. unfold sameDomain. by intros ->. Qed.

Lemma sameDomain_absolute (baseUrl urlStr : jsstring) :
  startsWith urlStr (lit "/") = false →
  sameDomain baseUrl urlStr = true ↔
    ∃ base url, URL_new baseUrl = Some base
                ∧ URL_new_base urlStr baseUrl = Some url
                ∧ URL_hostname url = URL_hostname base.
Proof.
  unfold sameDomain. intros ->.
  destruct (URL_new baseUrl) as [base|]; simpl.
  - destruct (URL_new_base urlStr baseUrl) as [url|]; simpl.
    + rewrite bool_decide_eq_true. split; [by eauto | by intros (? & ? & [= <-] & [= <-] & ?)].
    + split; [done | by intros (? & ? & _ & ? & _)].
  - split; [done | by intros (? & ? & ? & _)].
Qed.

Lemma schemeAllowed_spec (href : jsstring) :
  schemeAllowed href = true ↔
    href ≠ [] ∧ startsWith href (lit "javascript:") = false
    ∧ startsWith href (lit "mailto:") = false.
Proof.
  unfold schemeAllowed. rewrite !andb_true_iff, !negb_true_iff.
  destruct href; simpl; naive_solver.
Qed.

(** C7: the same-domain filter accepts every string that starts with [/],
    and any other string exactly when it resolves against the page's
    address to a URL of the page's host name; the links it is applied to
    are those left by the filter that drops the empty strings and the
    [javascript:] and [mailto:] addresses. *)
Theorem same_domain_filter :
  (∀ baseUrl urlStr,
     startsWith urlStr (lit "/") = true → sameDomain baseUrl urlStr = true)
  ∧ (∀ baseUrl urlStr,
       startsWith urlStr (lit "/") = false →
       sameDomain baseUrl urlStr = true ↔
         ∃ base url, URL_new baseUrl = Some base
                     ∧ URL_new_base urlStr baseUrl = Some url
                     ∧ URL_hostname url = URL_hostname base)
  ∧ (∀ baseUrl hrefs,
       let candidates := filter (λ href, schemeAllowed href) hrefs in
       pageLinks baseUrl hrefs = filter (λ href, sameDomain baseUrl href) candidates
       ∧ Forall (λ href, startsWith href (lit "javascript:") = false
                         ∧ startsWith href (lit "mailto:") = false) candidates
       ∧ ∀ link, link ∈ pageLinks baseUrl hrefs ↔
                 link ∈ candidates ∧ sameDomain baseUrl link = true).
Proof.
  split; [apply sameDomain_relative|]. split; [apply sameDomain_absolute|].
  intros baseUrl hrefs candidates. split; [done|]. split.
  - apply Forall_forall. intros href Hin. subst candidates.
    apply list_elem_of_filter in Hin as [Hallowed _].
    apply Is_true_true, schemeAllowed_spec in Hallowed. tauto.
  - intros link. unfold pageLinks. fold candidates.
    rewrite list_elem_of_filter, Is_true_true. tauto.
Qed.

(** The two derivations of a file name are one, and the one of the
    specification. *)
Lemma fileName_agreement (normalizedUrl : jsstring) :
  indexFileName normalizedUrl = pageFileName normalizedUrl
  ∧ pageFileName normalizedUrl =
      spec_baseName <$> (URL_pathname <$> URL_new normalizedUrl).
Proof.
  split; [done|]. unfold pageFileName.
  destruct (URL_new normalizedUrl) as [parsedUrl|]; [|done]. simpl.
  f_equal. apply fileName_derivation.
Qed.

(** When [".md"] first occurs in the file name as its suffix, the
    screenshot has the document's name with the suffix [".png"]. *)
Lemma screenshotName_suffix (name : jsstring) :
  (∀ k, (k < length name)%nat →
        startsWith (drop k (name ++ lit ".md")) (lit ".md") = false) →
  screenshotName (name ++ lit ".md") = name ++ lit ".png".
Proof.
  intros Hfirst. unfold screenshotName.
  rewrite <- (app_nil_r (lit ".md")) at 2.
  rewrite replace_first_at; [by rewrite app_nil_r|].
  intros k Hk. rewrite app_nil_r. by apply Hfirst.
Qed.

End ProgramProperties.

(** ** The crawl loop *)

Section LoopProperties.
Context `{URLClass}.
Variable browser : nat → jsstring → PageOutcome.

Lemma enqueueLinks_depth visitedUrls depth bound urlQueue links :
  (depth + 1 ≤ bound)%Z →
  Forall (λ entry : jsstring * Z, (entry.2 ≤ bound)%Z) urlQueue →
  Forall (λ entry, (entry.2 ≤ bound)%Z)
    (enqueueLinks visitedUrls depth urlQueue links).
Proof.
  intros Hdepth. unfold enqueueLinks. revert urlQueue.
  induction links as [|link links IH]; intros urlQueue Hqueue; simpl; [done|].
  apply IH. case_decide; [done|].
  apply Forall_app. split; [done|]. by apply Forall_singleton.
Qed.

Lemma invariant_start (targetUrl : jsstring) (maxDepth0 : Z) :
  invariant maxDepth0 (start targetUrl maxDepth0).
Proof.
  split; simpl; try done.
  - constructor.
  - intros entry Hin. by apply elem_of_nil in Hin.
  - apply Forall_singleton. simpl. lia.
  - intros d Hin. by apply elem_of_nil in Hin.
Qed.

Lemma invariant_at_phase maxDepth0 (s : Crawl) :
  invariant maxDepth0 s → invariant maxDepth0 (at_phase AtLoopHead s).
Proof.
  intros [Hmax Honce Hvisited Hdepth Hqueue Hopened Hwritten Hcounters Hdocs Hphase].
  split; simpl; try done.
  destruct (phase s); lia.
Qed.

Lemma invariant_dequeue maxDepth0 (s : Crawl) :
  phase s = AtLoopHead →
  invariant maxDepth0 s → invariant maxDepth0 (dequeue browser s).
Proof.
  intros Hhead [Hmax Honce Hvisited Hdepth Hqueue Hopened Hwritten Hcounters Hdocs Hphase].
  rewrite Hhead in Hcounters. unfold dequeue.
  destruct (urlQueue s) as [|[currentUrl depth] rest] eqn:Hentries.
  { split; simpl; try done. by rewrite Hentries. }
  apply Forall_cons in Hqueue as [_ Hqueue].
  destruct (decide (removeFragment currentUrl ∈ visitedUrls s)) as [Hseen|Hnew].
  { by split. }
  destruct (depth >? maxDepth (metadata s))%Z eqn:Hdeep.
  { by split. }
  assert (depth ≤ maxDepth0)%Z as Hle by lia.
  split; simpl; try done.
  - rewrite fmap_app. apply NoDup_app. split; [done|]. split; [|apply NoDup_singleton].
    intros address Hold Hnow. apply list_elem_of_singleton in Hnow. subst address.
    apply list_elem_of_fmap in Hold as (entry & Hentry & Hin).
    apply Hnew. change (removeFragment currentUrl) with (normalized (currentUrl, depth)).
    rewrite Hentry. by apply Hvisited.
  - intros entry [Hin|Hin%list_elem_of_singleton]%elem_of_app.
    + apply elem_of_union_r. by apply Hvisited.
    + subst entry. apply elem_of_union_l. by apply elem_of_singleton.
  - apply Forall_app. split; [done|]. by apply Forall_singleton.
  - rewrite length_app. simpl. lia.
  - destruct (browser _ _); rewrite length_app; simpl; lia.
  - intros d Hin. destruct (Hdocs d Hin) as [Hname Hin']. split; [done|].
    by apply elem_of_union_r.
  - destruct (browser _ _); try done.
    all: split; [done|]; split; [|done];
      apply elem_of_union_l; by apply elem_of_singleton.
Qed.

Lemma invariant_render maxDepth0 (s : Crawl) currentUrl depth normalizedUrl :
  phase s = InPage currentUrl depth normalizedUrl →
  invariant maxDepth0 s →
  invariant maxDepth0 (render browser currentUrl depth normalizedUrl s).
Proof.
  intros Hin Hinv. pose proof (invariant_at_phase _ _ Hinv) as Hskip.
  destruct Hinv as [Hmax Honce Hvisited Hdepth Hqueue Hopened Hwritten Hcounters Hdocs Hphase].
  rewrite Hin in Hcounters, Hphase. destruct Hphase as (-> & Hseen & Hle).
  unfold render. destruct (browser _ _); try done.
  all: destruct (pageFileName (removeFragment currentUrl)) as [fileName|] eqn:Hname;
    [|done].
  all: split; simpl; try done.
  all: try (rewrite length_app; simpl; lia).
  all: intros d [Hd|Hd%list_elem_of_singleton]%elem_of_app; [by apply Hdocs|];
    by subst d.
Qed.

Lemma invariant_harvest maxDepth0 (s : Crawl) currentUrl depth fileName :
  phase s = Written currentUrl depth fileName →
  invariant maxDepth0 s →
  invariant maxDepth0 (harvest browser currentUrl depth fileName s).
Proof.
  intros Hin Hinv. pose proof (invariant_at_phase _ _ Hinv) as Hskip.
  destruct Hinv as [Hmax Honce Hvisited Hdepth Hqueue Hopened Hwritten Hcounters Hdocs Hphase].
  rewrite Hin in Hcounters, Hphase.
  unfold harvest. destruct (browser _ _) as [| | | |hrefs]; try done.
  all: split; simpl; try done.
  all: destruct (depth <? maxDepth (metadata s))%Z eqn:Hshallow; [|done].
  - done.
  - apply enqueueLinks_depth; [lia | done].
Qed.

Lemma invariant_step maxDepth0 (s : Crawl) :
  invariant maxDepth0 s → invariant maxDepth0 (step browser s).
Proof.
  intros Hinv. unfold step. destruct (phase s) eqn:Hphase; try done.
  - by apply invariant_dequeue.
  - by apply invariant_render.
  - by apply invariant_harvest.
Qed.

Lemma run_S (n : nat) (s : Crawl) :
  run browser (S n) s = step browser (run browser n s).
Proof. done. Qed.

Lemma invariant_run (targetUrl : jsstring) (maxDepth0 : Z) (n : nat) :
  invariant maxDepth0 (scrapeToMarkdown browser targetUrl maxDepth0 n).
Proof.
  unfold scrapeToMarkdown. induction n as [|n IH]; [apply invariant_start|].
  rewrite run_S. by apply invariant_step.
Qed.

End LoopProperties.

Section RunProperties.
Context `{URLClass}.
Variable browser : nat → jsstring → PageOutcome.

Lemma createIndexMarkdown_entry visitedUrls originalUrls index normalizedUrl :
  createIndexMarkdown visitedUrls originalUrls = Some index →
  normalizedUrl ∈ visitedUrls →
  ∃ label fileName,
    indexFileName normalizedUrl = Some fileName
    ∧ (label, lit "./" ++ fileName) ∈ index.
Proof.
  unfold createIndexMarkdown. intros Hindex%mapM_Some_1 Hin.
  assert (normalizedUrl ∈ merge_sort (λ a b, code_unit_le a b) (elements visitedUrls))
    as Hsorted.
  { rewrite merge_sort_Permutation. by apply elem_of_elements. }
  apply list_elem_of_lookup_1 in Hsorted as [i Hi].
  destruct (Forall2_lookup_l _ _ _ _ _ Hindex Hi) as (entry & Hentry & Hmade).
  unfold indexEntry in Hmade.
  destruct (indexFileName normalizedUrl) as [fileName|]; [|done].
  simpl in Hmade. injection Hmade as <-.
  eexists _, fileName. split; [done|]. by eapply list_elem_of_lookup_2.
Qed.

Lemma createIndexMarkdown_link visitedUrls originalUrls index entry :
  createIndexMarkdown visitedUrls originalUrls = Some index →
  entry ∈ index →
  ∃ normalizedUrl fileName,
    normalizedUrl ∈ visitedUrls
    ∧ pageFileName normalizedUrl = Some fileName
    ∧ entry.2 = lit "./" ++ fileName.
Proof.
  unfold createIndexMarkdown. intros Hindex%mapM_Some_1 [i Hi]%list_elem_of_lookup_1.
  destruct (Forall2_lookup_r _ _ _ _ _ Hindex Hi) as (normalizedUrl & Hsorted & Hmade).
  apply list_elem_of_lookup_2 in Hsorted.
  rewrite merge_sort_Permutation in Hsorted. apply elem_of_elements in Hsorted.
  unfold indexEntry in Hmade.
  destruct (indexFileName normalizedUrl) as [fileName|] eqn:Hname; [|done].
  simpl in Hmade. injection Hmade as <-.
  by exists normalizedUrl, fileName.
Qed.

Lemma step_opens (s : Crawl) currentUrl depth rest :
  phase s = AtLoopHead →
  urlQueue s = (currentUrl, depth) :: rest →
  removeFragment currentUrl ∉ visitedUrls s →
  (depth ≤ maxDepth (metadata s))%Z →
  step browser s =
    let m := metadata s in
    let n := S (pagesScraped m) in
    {| urlQueue := rest;
       visitedUrls := {[ removeFragment currentUrl ]} ∪ visitedUrls s;
       originalUrls := <[ removeFragment currentUrl := currentUrl ]> (originalUrls s);
       metadata := {| startUrl := startUrl m; maxDepth := maxDepth m;
                      pagesScraped := n; markdownFiles := markdownFiles m |};
       processed := processed s ++ [(currentUrl, depth)];
       documents := documents s; screenshots := screenshots s;
       phase := match browser n currentUrl with
                | RendererFails => Aborted
                | _ => InPage currentUrl depth (removeFragment currentUrl)
                end |}.
Proof.
  intros Hhead Hqueue Hnew Hdepth. unfold step. rewrite Hhead.
  unfold dequeue. rewrite Hqueue, decide_False by done.
  by assert ((depth >? maxDepth (metadata s))%Z = false) as -> by lia.
Qed.

(** C1, as the code has it: a frontier entry that is opened and whose
    page fails has advanced [pagesScraped] by one; [markdownFiles], the
    documents, the screenshots and the rest of the queue are as they were,
    and the control is back at the head of the loop, where the next entry
    is taken. *)
Theorem failed_page_counted_once (s : Crawl) currentUrl depth rest :
  phase s = AtLoopHead →
  urlQueue s = (currentUrl, depth) :: rest →
  removeFragment currentUrl ∉ visitedUrls s →
  (depth ≤ maxDepth (metadata s))%Z →
  browser (S (pagesScraped (metadata s))) currentUrl = PageFails →
  let s' := run browser 2 s in
  pagesScraped (metadata s') = S (pagesScraped (metadata s))
  ∧ markdownFiles (metadata s') = markdownFiles (metadata s)
  ∧ startUrl (metadata s') = startUrl (metadata s)
  ∧ maxDepth (metadata s') = maxDepth (metadata s)
  ∧ documents s' = documents s
  ∧ screenshots s' = screenshots s
  ∧ urlQueue s' = rest
  ∧ phase s' = AtLoopHead
  ∧ step browser s' = dequeue browser s'.
Proof.
  intros Hhead Hqueue Hnew Hdepth Hfails s'. subst s'.
  change (run browser 2 s) with (step browser (step browser s)).
  rewrite (step_opens s currentUrl depth rest) by done.
  unfold step. cbn [phase]. rewrite Hfails. cbn [phase].
  unfold render. cbn [metadata pagesScraped]. rewrite Hfails.
  unfold dequeue. by cbn.
Qed.

(** C3: the entries handed to the page processing have pairwise distinct
    normalized addresses. *)
Theorem processed_once (targetUrl : jsstring) (maxDepth0 : Z) (n : nat) :
  let entries := processed (scrapeToMarkdown browser targetUrl maxDepth0 n) in
  NoDup (normalized <$> entries)
  ∧ ∀ i j entry1 entry2,
      entries !! i = Some entry1 → entries !! j = Some entry2 → i ≠ j →
      normalized entry1 ≠ normalized entry2.
Proof.
  intros entries.
  assert (NoDup (normalized <$> entries)) as Honce
    by apply (inv_once _ _ (invariant_run browser targetUrl maxDepth0 n)).
  split; [done|].
  intros i j entry1 entry2 Hi Hj Hij Heq. apply Hij.
  eapply (NoDup_lookup _ i j (normalized entry1) Honce).
  - by rewrite list_lookup_fmap, Hi.
  - by rewrite list_lookup_fmap, Hj, Heq.
Qed.

(** C4: no processed entry is deeper than [maxDepth]; the page of an
    entry that is not above [maxDepth] (which, processed, is at
    [maxDepth]) leaves the queue as it is; so the queue never holds an
    entry deeper than [maxDepth], the seed apart (its depth 0 exceeds a
    negative [maxDepth]). *)
Theorem depth_bounded (targetUrl : jsstring) (maxDepth0 : Z) (n : nat) :
  let s := scrapeToMarkdown browser targetUrl maxDepth0 n in
  Forall (λ entry, (entry.2 ≤ maxDepth0)%Z) (processed s)
  ∧ Forall (λ entry, (entry.2 ≤ Z.max 0 maxDepth0)%Z) (urlQueue s)
  ∧ ∀ currentUrl depth fileName,
      phase s = Written currentUrl depth fileName →
      (depth ≤ maxDepth0)%Z
      ∧ (¬ (depth < maxDepth0)%Z → urlQueue (step browser s) = urlQueue s).
Proof.
  intros s. pose proof (invariant_run browser targetUrl maxDepth0 n) as Hinv.
  fold s in Hinv. split; [apply (inv_depth _ _ Hinv)|].
  split; [apply (inv_queue _ _ Hinv)|].
  intros currentUrl depth fileName Hphase.
  pose proof (inv_phase _ _ Hinv) as Hle. rewrite Hphase in Hle. split; [done|].
  intros Hdeep. unfold step. rewrite Hphase. unfold harvest.
  rewrite (inv_maxDepth _ _ Hinv).
  assert ((depth <? maxDepth0)%Z = false) as -> by lia.
  by destruct (browser _ _).
Qed.

(** C9: at every step of a run, the last one included, [markdownFiles] is
    at most [pagesScraped]. *)
Theorem markdownFiles_le_pagesScraped (targetUrl : jsstring) (maxDepth0 : Z) (n : nat) :
  let m := metadata (scrapeToMarkdown browser targetUrl maxDepth0 n) in
  (markdownFiles m ≤ pagesScraped m)%nat.
Proof.
  pose proof (invariant_run browser targetUrl maxDepth0 n) as Hinv. simpl.
  rewrite (inv_opened _ _ Hinv), (inv_written _ _ Hinv).
  pose proof (inv_counters _ _ Hinv) as Hcount.
  destruct (phase _); lia.
Qed.

(** C8: the index builder and the page pipeline derive the same file name
    from every normalized address, the one of the specification; so in
    every run each entry of the index links to the file name that the
    pipeline derives for a visited address, and each document that was
    written has an entry that links to its file name. *)
Theorem index_links_to_documents (targetUrl : jsstring) (maxDepth0 : Z) (n : nat) :
  (∀ normalizedUrl,
     indexFileName normalizedUrl = pageFileName normalizedUrl
     ∧ pageFileName normalizedUrl =
         spec_baseName <$> (URL_pathname <$> URL_new normalizedUrl))
  ∧ let s := scrapeToMarkdown browser targetUrl maxDepth0 n in
    (∀ index entry,
       phase s = Finished (Some index) → entry ∈ index →
       ∃ normalizedUrl fileName,
         normalizedUrl ∈ visitedUrls s
         ∧ pageFileName normalizedUrl = Some fileName
         ∧ entry.2 = lit "./" ++ fileName)
    ∧ ∀ d, d ∈ documents s →
        indexFileName (doc_normalizedUrl d) = Some (doc_fileName d)
        ∧ ∀ index, phase s = Finished (Some index) →
            ∃ label, (label, lit "./" ++ doc_fileName d) ∈ index.
Proof.
  split; [apply fileName_agreement|].
  intros s. pose proof (invariant_run browser targetUrl maxDepth0 n) as Hinv.
  fold s in Hinv. pose proof (inv_phase _ _ Hinv) as Hindex. split.
  - intros index entry Hphase Hentry. rewrite Hphase in Hindex.
    by apply (createIndexMarkdown_link _ _ _ _ (eq_sym Hindex)).
  - intros d Hd. destruct (inv_documents _ _ Hinv d Hd) as [Hname Hvisited].
    split; [done|]. intros index Hphase. rewrite Hphase in Hindex.
    destruct (createIndexMarkdown_entry _ _ _ _ (eq_sym Hindex) Hvisited)
      as (label & fileName & Hfile & Hentry).
    exists label. destruct (fileName_agreement (doc_normalizedUrl d)) as [Hsame _].
    rewrite Hsame, Hname in Hfile. by injection Hfile as <-.
Qed.

End RunProperties.

(** ** The scenarios *)

Module ScenarioFacts.
Import SimpleURL SimpleURLFacts Scenario.

(** C1, as the claim has it, fails: the one page of the run fails and
    [pagesScraped] goes from 0 to 1. *)
Lemma failed_page_advances_pagesScraped :
  let s := start seed 2 in
  let s' := run offline 2 s in
  offline 1%nat (lit "https://example.com/") = PageFails
  ∧ processed s' = [(lit "https://example.com/", 0%Z)]
  ∧ documents s' = []
  ∧ phase s' = AtLoopHead
  ∧ pagesScraped (metadata s) = 0%nat
  ∧ pagesScraped (metadata s') = 1%nat
  ∧ metadata s' ≠ metadata s.
Proof. by vm_compute. Qed.

(** The amended C1 on the same run. *)
Lemma failed_page_counted_once_offline :
  let s := start seed 2 in
  let s' := run offline 2 s in
  pagesScraped (metadata s') = S (pagesScraped (metadata s))
  ∧ markdownFiles (metadata s') = markdownFiles (metadata s)
  ∧ startUrl (metadata s') = startUrl (metadata s)
  ∧ maxDepth (metadata s') = maxDepth (metadata s)
  ∧ documents s' = documents s
  ∧ screenshots s' = screenshots s
  ∧ urlQueue s' = []
  ∧ phase s' = AtLoopHead
  ∧ step offline s' = dequeue offline s'.
Proof.
  apply (failed_page_counted_once offline (start seed 2)
           (lit "https://example.com/") 0%Z []).
  - reflexivity.
  - reflexivity.
  - apply not_elem_of_empty.
  - simpl. lia.
  - reflexivity.
Defined.

(** C2 at an address with a query and a fragment. *)
Lemma removeFragment_docs :
  let x := lit "https://example.com/docs?page=2#install" in
  removeFragment x = lit "https://example.com/docs?page=2"
  ∧ removeFragment_js x = Some (removeFragment x)
  ∧ (URL_new x = None → removeFragment x = x)
  ∧ removeFragment (removeFragment x) = removeFragment x.
Proof.
  split; [by vm_compute|].
  exact (removeFragment_total_idempotent (lit "https://example.com/docs?page=2#install")).
Defined.

(** C3 on the first two entries that the site's crawl processes. *)
Lemma processed_once_site :
  let entries := processed (scrapeToMarkdown site seed 2 12) in
  NoDup (normalized <$> entries)
  ∧ normalized (lit "https://example.com/", 0%Z)
      ≠ normalized (lit "https://example.com/about", 1%Z).
Proof.
  split.
  - exact (proj1 (processed_once site seed 2 12)).
  - apply (proj2 (processed_once site seed 2 12) 0%nat 1%nat); [by vm_compute.. | lia].
Defined.

(** C4 on a crawl to the depth 1, at the page of depth 1: its links are
    not enqueued. *)
Lemma depth_bounded_site :
  let s := scrapeToMarkdown site seed 1 5 in
  phase s = Written (lit "https://example.com/about") 1 (lit "about.md")
  ∧ Forall (λ entry, (entry.2 ≤ 1)%Z) (processed s)
  ∧ urlQueue (step site s) = urlQueue s.
Proof.
  split; [by vm_compute|]. split.
  - exact (proj1 (depth_bounded site seed 1 5)).
  - apply (proj2 (proj2 (depth_bounded site seed 1 5))
             (lit "https://example.com/about") 1%Z (lit "about.md")).
    + by vm_compute.
    + lia.
Defined.

(** C7 on the links of the site's first page. *)
Lemma same_domain_filter_site :
  let page := lit "https://example.com/" in
  sameDomain page (lit "/contact") = true
  ∧ sameDomain page (lit "https://example.com/about") = true
  ∧ sameDomain page (lit "https://other.org/") = false
  ∧ pageLinks page [lit "https://example.com/about"; lit "https://other.org/";
                    lit "mailto:info@example.com"; lit "javascript:void(0)"]
    = [lit "https://example.com/about"].
Proof.
  split; [|split; [|by vm_compute]].
  - by apply (proj1 same_domain_filter).
  - apply (proj1 (proj2 same_domain_filter)); [done|].
    by eexists _, _.
Defined.

(** C8 on the document of the site's second page, once the crawl is over. *)
Lemma index_links_to_documents_site :
  let s := scrapeToMarkdown site seed 2 15 in
  let about := {| doc_fileName := lit "about.md";
                  doc_url := lit "https://example.com/about";
                  doc_normalizedUrl := lit "https://example.com/about";
                  doc_depth := 1 |} in
  let index := match phase s with Finished (Some index) => index | _ => [] end in
  indexFileName (doc_normalizedUrl about) = Some (doc_fileName about)
  ∧ ∃ label, (label, lit "./about.md") ∈ index.
Proof.
  intros s about index.
  assert (about ∈ documents s) as Hwritten.
  { vm_compute. apply list_elem_of_further, list_elem_of_here. }
  destruct (proj2 (proj2 (index_links_to_documents site seed 2 15)) about Hwritten)
    as [Hname Hentry].
  split; [exact Hname|].
  apply (Hentry index). by vm_compute.
Defined.

(** C10 on a quotation of two lines. *)
Lemma blockquote_quotation :
  elementToMarkdown (lit "https://example.com/") quotation
  = Some (lit "> To be, or not" ++ [LF; LF]).
Proof.
  exact (proj2 (proj2 cleanText_single_line (lit "https://example.com/") []
                  (lit "block") (lit "visible")
                  [Text (lit "To be," ++ [LF] ++ lit "  or not")]
                  ltac:(done) ltac:(done))).
Defined.

(** C6, at the address [https://example.com/notes.md.html]: the document is
    [notes.md.html.md], and the screenshot [notes.png.html.md], where the
    first [".md"] of the name, and not its suffix, became [".png"]. *)
Theorem screenshot_name_replaces_first_md :
  let normalizedUrl := lit "https://example.com/notes.md.html" in
  pageFileName normalizedUrl = Some (lit "notes.md.html.md")
  ∧ screenshotName (lit "notes.md.html.md") = lit "notes.png.html.md"
  ∧ screenshotName (lit "notes.md.html.md") ≠ lit "notes.md.html.png"
  ∧ screenshots (scrapeToMarkdown site seed 2 12)
    = [lit "index.png"; lit "about.png"; lit "notes.png.html.md"].
Proof. by vm_compute. Qed.

(** The examples of the specification. *)

Example heading_round_trip :
  elementToMarkdown seed (visibleElement "h3" [Text (lit "Foo")])
  = Some (lit "### Foo" ++ [LF; LF]).
Proof. by vm_compute. Qed.

Example list_conversion :
  let items := [visibleElement "li" [Text (lit "A")];
                visibleElement "li" [Text (lit "B")]] in
  elementToMarkdown seed (visibleElement "ul" items)
  = Some (lit "* A" ++ [LF] ++ lit "* B" ++ [LF; LF])
  ∧ elementToMarkdown seed (visibleElement "ol" items)
    = Some (lit "1. A" ++ [LF] ++ lit "2. B" ++ [LF; LF]).
Proof. by vm_compute. Qed.

Example link_resolution :
  elementToMarkdown (lit "https://x.com/a/b")
    (Element (lit "a") [(lit "href", lit "/p")] (lit "inline") (lit "visible")
       [Text (lit "Go")])
  = Some (lit "[Go](https://x.com/p)").
Proof. by vm_compute. Qed.

Example unparseable_address :
  URL_new (lit "not an address") = None
  ∧ removeFragment (lit "not an address") = lit "not an address".
Proof. by vm_compute. Qed.

Example crawl_to_depth_zero :
  let s := scrapeToMarkdown site seed 0 4 in
  phase s = Finished (Some [(lit "https://example.com/", lit "./index.md")])
  ∧ urlQueue s = []
  ∧ pagesScraped (metadata s) = 1%nat
  ∧ markdownFiles (metadata s) = 1%nat
  ∧ doc_fileName <$> documents s = [lit "index.md"].
Proof. by vm_compute. Qed.

Example crawl_offline :
  let s := scrapeToMarkdown offline seed 2 3 in
  phase s = Finished (Some [(lit "https://example.com/", lit "./index.md")])
  ∧ pagesScraped (metadata s) = 1%nat
  ∧ markdownFiles (metadata s) = 0%nat
  ∧ documents s = [].
Proof. by vm_compute. Qed.

End ScenarioFacts.

(** * Further properties *)

(** ** The normal form of [cleanText] *)

Lemma trimStart_head (s : jsstring) :
  match trimStart s with
  | [] => Forall (λ c, isWhiteSpace c = true) s
  | c :: _ => isWhiteSpace c = false
  end.
Proof.
  induction s as [|c s IH]; simpl; [constructor|].
  destruct (isWhiteSpace c) eqn:Hc; [|done].
  destruct (trimStart s); [by constructor | done].
Qed.

Lemma trimStart_suffix (s : jsstring) : trimStart s `suffix_of` s.
Proof.
  induction s as [|c s IH]; simpl; [done|].
  destruct (isWhiteSpace c); [by apply suffix_cons_r | done].
Qed.

Lemma trimStart_fixed (c : N) (s : jsstring) :
  isWhiteSpace c = false → trimStart (c :: s) = c :: s.
Proof. simpl. by intros ->. Qed.

Lemma trimStart_all (s : jsstring) :
  Forall (λ c, isWhiteSpace c = true) s → trimStart s = [].
Proof. induction 1 as [|c s Hc _ IH]; simpl; [done|]. by rewrite Hc. Qed.

(** A trimmed string is empty, when the string is white space, or begins
    and ends with a character that is no white space. *)
Lemma trim_ends (s : jsstring) :
  (trim s = [] ∧ Forall (λ c, isWhiteSpace c = true) s)
  ∨ ∃ a m b, (trim s = [a] ∨ trim s = a :: m ++ [b])
             ∧ isWhiteSpace a = false ∧ isWhiteSpace b = false
             ∧ (trim s = [a] → b = a).
Proof.
  unfold trim. pose proof (trimStart_head s) as Hhead.
  destruct (trimStart s) as [|a u] eqn:Hu.
  { left. by rewrite reverse_nil. }
  right. pose proof (trimStart_head (reverse (a :: u))) as Hlast.
  pose proof (trimStart_suffix (reverse (a :: u))) as [k Hk].
  destruct (trimStart (reverse (a :: u))) as [|b v] eqn:Hv.
  { rewrite Forall_reverse in Hlast. apply Forall_cons in Hlast as [Ha _]. congruence. }
  apply (f_equal reverse) in Hk. rewrite reverse_involutive, reverse_app, reverse_cons in Hk.
  destruct (reverse v) as [|a' m] eqn:Hm.
  - simpl in Hk. injection Hk as -> _. exists b, [], b. rewrite reverse_cons, Hm. naive_solver.
  - simpl in Hk. injection Hk as <- _. exists a, m, b. rewrite reverse_cons, Hm.
    split; [by right|]. split; [done|]. split; [done|]. by destruct m.
Qed.

Lemma replace_runs_snoc p rep in_run (s : jsstring) (c : N) :
  p c = false →
  replace_runs p rep in_run (s ++ [c]) = replace_runs p rep in_run s ++ [c].
Proof.
  intros Hc. revert in_run. induction s as [|x s IH]; intros in_run; simpl.
  - by rewrite Hc.
  - destruct (p x); [destruct in_run|]; by rewrite IH, ?app_assoc.
Qed.

Lemma spaced_weaken after_space (s : jsstring) :
  spaced true s = true → spaced after_space s = true.
Proof. destruct s as [|c s]; simpl; [done|]. destruct (isWhiteSpace c); [|done].
  by rewrite andb_false_r. Qed.

Lemma replace_runs_spaced in_run (s : jsstring) :
  spaced in_run (replace_runs isWhiteSpace [SPACE] in_run s) = true.
Proof.
  revert in_run. induction s as [|c s IH]; intros in_run; simpl; [done|].
  destruct (isWhiteSpace c) eqn:Hc.
  - destruct in_run; [apply IH|]. simpl. apply IH.
  - simpl. rewrite Hc. apply IH.
Qed.

Lemma spaced_fixed in_run (s : jsstring) :
  spaced in_run s = true → replace_runs isWhiteSpace [SPACE] in_run s = s.
Proof.
  revert in_run. induction s as [|c s IH]; intros in_run; simpl; [done|].
  destruct (isWhiteSpace c) eqn:Hc.
  - rewrite !andb_true_iff, bool_decide_eq_true, negb_true_iff.
    intros [[-> ->] Hrest]. simpl. by rewrite IH.
  - intros Hrest. by rewrite IH.
Qed.

Lemma trim_head (s : jsstring) :
  match trim s with
  | [] => Forall (λ c, isWhiteSpace c = true) s
  | a :: _ => isWhiteSpace a = false
  end.
Proof.
  destruct (trim_ends s) as [[-> Hall]|(a & m & b & [->| ->] & Ha & Hb & _)]; done.
Qed.

Lemma trim_last (s : jsstring) :
  match last (trim s) with
  | Some b => isWhiteSpace b = false
  | None => trim s = []
  end.
Proof.
  destruct (trim_ends s) as [[-> Hall]|(a & m & b & [->| ->] & Ha & Hb & _)]; [done..|].
  by rewrite app_comm_cons, last_snoc.
Qed.

Lemma trim_fixed (s : jsstring) :
  match s with [] => True | a :: _ => isWhiteSpace a = false end →
  match last s with Some b => isWhiteSpace b = false | None => True end →
  trim s = s.
Proof.
  intros Hhead Hlast. unfold trim. destruct s as [|a s]; [done|].
  rewrite trimStart_fixed by done.
  destruct (reverse (a :: s)) as [|b r] eqn:Hr.
  { by rewrite <- (reverse_involutive (a :: s)), Hr. }
  assert (last (a :: s) = Some b) as Hb.
  { rewrite <- (reverse_involutive (a :: s)), Hr, reverse_cons. apply last_snoc. }
  rewrite Hb in Hlast. rewrite trimStart_fixed by done.
  by rewrite <- Hr, reverse_involutive.
Qed.

(** The cleaned text, its first and its last character. *)
Lemma cleanText_shape (text : jsstring) :
  let r := cleanText text in
  spaced true r = true
  ∧ match last r with Some b => isWhiteSpace b = false | None => r = [] end
  ∧ (r = [] ↔ Forall (λ c, isWhiteSpace c = true) text).
Proof.
  intros r. subst r. rewrite cleanText_collapsed.
  destruct text as [|c0 text0] eqn:Htext; [by repeat split|].
  rewrite <- Htext. replace (truthy text) with true by by rewrite Htext.
  pose proof (trim_head text) as Hhead. pose proof (trim_last text) as Hlast.
  destruct (trim text) as [|a u] eqn:Htrim.
  { repeat split; done. }
  split; [|split].
  - simpl. rewrite Hhead. simpl. rewrite Hhead. apply replace_runs_spaced.
  - destruct (last (a :: u)) as [b|] eqn:Hb; [|done].
    apply last_Some in Hb as [v Hv]. rewrite Hv, replace_runs_snoc by done.
    by rewrite last_snoc.
  - simpl. rewrite Hhead. split; [done|]. intros Hall.
    pose proof (trimStart_all _ Hall) as Hempty.
    unfold trim in Htrim. rewrite Hempty in Htrim. by rewrite reverse_nil in Htrim.
Qed.

Lemma spaced_lookup after_space (s : jsstring) (i : nat) :
  spaced after_space s = true →
  s !! i = Some SPACE →
  s !! S i ≠ Some SPACE
  ∧ match i with
    | O => after_space = false
    | S j => ∃ a, s !! j = Some a ∧ a ≠ SPACE
    end.
Proof.
  revert after_space i. induction s as [|c s IH]; intros after_space i Hs Hi; [done|].
  simpl in Hs. destruct i as [|i].
  - injection Hi as ->. change (isWhiteSpace SPACE) with true in Hs.
    rewrite !andb_true_iff, negb_true_iff in Hs. destruct Hs as [[_ ->] Hrest].
    split; [|done]. simpl. destruct s as [|d s]; [done|]. simpl in Hrest.
    intros [= ->]. change (isWhiteSpace SPACE) with true in Hrest.
    by rewrite andb_false_r in Hrest.
  - simpl in Hi. destruct (isWhiteSpace c) eqn:Hc.
    + rewrite !andb_true_iff, bool_decide_eq_true in Hs. destruct Hs as [[-> _] Hrest].
      destruct (IH true i Hrest Hi) as [Hnext Hprev]. split; [done|].
      destruct i; [done|]. done.
    + destruct (IH false i Hs Hi) as [Hnext Hprev]. split; [done|].
      destruct i as [|j]; [|done]. exists c. split; [done|]. by intros ->.
Qed.

Lemma spaced_only_space after_space (s : jsstring) :
  spaced after_space s = true →
  Forall (λ c, isWhiteSpace c = true → c = SPACE) s.
Proof.
  revert after_space. induction s as [|c s IH]; intros after_space Hs; [constructor|].
  simpl in Hs. destruct (isWhiteSpace c) eqn:Hc.
  - rewrite !andb_true_iff, bool_decide_eq_true in Hs. destruct Hs as [[-> _] Hrest].
    constructor; [done | by eapply IH].
  - constructor; [by rewrite Hc | by eapply IH].
Qed.

(** X1: in the text that [cleanText] returns, the only white space is the
    space; every space stands between two characters that are no spaces,
    so the text neither begins nor ends with one and has no two in a row;
    and the text is empty exactly when the input is all white space. *)
Theorem cleanText_normal_form (text : jsstring) :
  let r := cleanText text in
  Forall (λ c, isWhiteSpace c = true → c = SPACE) r
  ∧ (∀ i, r !! i = Some SPACE →
       ∃ j a b, i = S j ∧ r !! j = Some a ∧ a ≠ SPACE
                ∧ r !! S i = Some b ∧ b ≠ SPACE)
  ∧ (r = [] ↔ Forall (λ c, isWhiteSpace c = true) text).
Proof.
  intros r. destruct (cleanText_shape text) as (Hspaced & Hlast & Hempty). fold r in Hspaced, Hlast, Hempty.
  split; [by eapply spaced_only_space|]. split; [|done].
  intros i Hi. destruct (spaced_lookup _ _ _ Hspaced Hi) as [Hnext Hprev].
  destruct i as [|j]; [done|]. destruct Hprev as (a & Ha & Hspace).
  exists j, a. destruct (r !! S (S j)) as [b|] eqn:Hb.
  - exists b. repeat split; try done. by intros ->.
  - exfalso. apply lookup_ge_None in Hb.
    assert (last r = Some SPACE) as Hend.
    { rewrite last_lookup. rewrite <- Hi. f_equal.
      apply lookup_lt_Some in Hi. lia. }
    by rewrite Hend in Hlast.
Qed.

(** X2: [cleanText] is idempotent. *)
Theorem cleanText_idempotent (text : jsstring) :
  cleanText (cleanText text) = cleanText text.
Proof.
  destruct (cleanText_shape text) as (Hspaced & Hlast & _).
  set (r := cleanText text) in *. rewrite cleanText_collapsed.
  destruct r as [|a u] eqn:Hr; [done|]. rewrite <- Hr in *.
  replace (truthy r) with true by by rewrite Hr.
  rewrite trim_fixed.
  - apply spaced_fixed. by apply spaced_weaken.
  - rewrite Hr in Hspaced |- *. simpl in Hspaced.
    destruct (isWhiteSpace a); [|done]. by rewrite andb_false_r in Hspaced.
  - by destruct (last r).
Qed.

(** ** More on the Content Extractor *)

Section MoreExtractorProperties.
Context `{URLClass}.

Lemma Node_induction (P : Node → Prop) :
  (∀ tagName attrs display visibility childNodes,
     Forall P childNodes → P (Element tagName attrs display visibility childNodes)) →
  (∀ data, P (Text data)) →
  (∀ data, P (Comment data)) →
  ∀ n, P n.
Proof.
  intros Helement Htext Hcomment. fix IH 1.
  intros [tagName attrs display visibility childNodes|data|data];
    [|apply Htext|apply Hcomment].
  apply Helement. induction childNodes as [|k l IHl]; constructor; [apply IH | apply IHl].
Qed.

Lemma ulItems_fold (acc : jsstring) (l : list Node) :
  foldl (λ ulItems child,
           if decide (tagOf child = Some (lit "li"))
           then ulItems ++ lit "* " ++ cleanText (textContent child) ++ [LF]
           else ulItems)
        acc l
  = acc ++ mjoin ((λ child, lit "* " ++ cleanText (textContent child) ++ [LF])
                    <$> filter (λ child, isListItem child = true) l).
Proof.
  revert acc. induction l as [|c l IH]; intros acc; cbn [foldl].
  - by rewrite app_nil_r.
  - rewrite IH.
    destruct (decide (tagOf c = Some (lit "li"))) as [Hli|Hli].
    + rewrite filter_cons_True by (unfold isListItem; by apply bool_decide_eq_true_2).
      cbn [fmap list_fmap mjoin list_join]. by rewrite <- !app_assoc.
    + rewrite filter_cons_False; [done|].
      unfold isListItem. by rewrite bool_decide_eq_false_2.
Qed.

Lemma filter_children_items (l : list Node) :
  filter (λ child, isListItem child = true) (children l)
  = filter (λ child, isListItem child = true) l.
Proof.
  unfold children. induction l as [|c l IH]; [done|].
  destruct (decide (is_Some (tagOf c))) as [Hel|Hel].
  - rewrite (filter_cons_True (λ k, is_Some (tagOf k))) by done.
    destruct (decide (isListItem c = true)).
    + rewrite !filter_cons_True by done. by rewrite IH.
    + rewrite !filter_cons_False by done. by rewrite IH.
  - rewrite (filter_cons_False (λ k, is_Some (tagOf k))) by done.
    rewrite filter_cons_False; [done|].
    unfold isListItem. intros Hli%bool_decide_eq_true. apply Hel. by rewrite Hli.
Qed.

(** X3: an unordered list that is not hidden is rendered as one line
    ["* "] and the cleaned text for each of its child nodes that is a
    list item, in order, and a newline after them; its other child nodes
    leave no trace, and a list with no item is rendered as the empty
    string. *)
Theorem unordered_list_rendering baseUrl attrs display visibility childNodes :
  display ≠ lit "none" →
  visibility ≠ lit "hidden" →
  let items := filter (λ child, isListItem child = true) childNodes in
  elementToMarkdown baseUrl (Element (lit "ul") attrs display visibility childNodes)
  = Some (match items with
          | [] => []
          | _ :: _ =>
              mjoin ((λ item, lit "* " ++ cleanText (textContent item) ++ [LF]) <$> items)
                ++ [LF]
          end).
Proof.
  intros Hdisplay Hvisibility items. cbn [elementToMarkdown].
  rewrite (bool_decide_eq_false_2 _ Hdisplay), (bool_decide_eq_false_2 _ Hvisibility).
  decide_tags. unfold ulItems. rewrite ulItems_fold, filter_children_items.
  fold items. cbn [app]. by destruct items.
Qed.

(** X4: an ordered list that is not hidden and all of whose child elements
    are list items is rendered as one line for each item, its number from
    1 on, [". "] and its cleaned text, and a newline after them. *)
Theorem ordered_list_rendering baseUrl attrs display visibility childNodes :
  display ≠ lit "none" →
  visibility ≠ lit "hidden" →
  Forall (λ child, isListItem child = true) (children childNodes) →
  let items := children childNodes in
  elementToMarkdown baseUrl (Element (lit "ol") attrs display visibility childNodes)
  = Some (match items with
          | [] => []
          | _ :: _ =>
              mjoin (imap (λ i item, decimal (S i) ++ lit ". "
                                       ++ cleanText (textContent item) ++ [LF]) items)
                ++ [LF]
          end).
Proof.
  intros Hdisplay Hvisibility Hitems items. cbn [elementToMarkdown].
  rewrite (bool_decide_eq_false_2 _ Hdisplay), (bool_decide_eq_false_2 _ Hvisibility).
  decide_tags. rewrite olItems_only_items by done. fold items.
  rewrite (imap_ext _ (λ i item, decimal (S i) ++ lit ". "
                                   ++ cleanText (textContent item) ++ [LF])).
  2:{ intros i item _. unfold olLine. by replace (i + 1)%nat with (S i) by lia. }
  destruct items as [|item items']; [done|].
  cbn [imap mjoin list_join]. change (decimal 1) with [49]. by cbn [app truthy].
Qed.

End MoreExtractorProperties.

Section ExtractorRaises.
Context `{URLClass}.

Lemma references_children tagName attrs display visibility childNodes (P : jsstring → Prop) :
  Forall P (references (Element tagName attrs display visibility childNodes)) →
  Forall (λ child, Forall P (references child)) childNodes.
Proof.
  cbn [references]. intros [_ Hbelow]%Forall_app.
  induction childNodes as [|k l IH]; [constructor|].
  apply Forall_app in Hbelow as [Hk Hl]. constructor; [done | by apply IH].
Qed.

(** X5: [elementToMarkdown] raises on an element only through an address
    that does not resolve: when every [href] and [src] that it may
    resolve below the element resolves against the base address, it
    returns. *)
Theorem elementToMarkdown_returns (baseUrl : jsstring) (element : Node) :
  is_Some (tagOf element) →
  Forall (λ address, is_Some (URL_new_base address baseUrl)) (references element) →
  is_Some (elementToMarkdown baseUrl element).
Proof.
  induction element as [tagName attrs display visibility childNodes IH|data|data]
    using Node_induction; [|by intros [? [=]]..].
  intros _ Hresolve.
  pose proof (references_children _ _ _ _ _ _ Hresolve) as Hbelow.
  assert (is_Some
            ((fix walk (l : list Node) : option jsstring :=
                match l with
                | [] => Some []
                | child :: l' =>
                    piece ← match child with
                            | Element _ _ _ _ _ => elementToMarkdown baseUrl child
                            | Text _ =>
                                let text := cleanText (textContent child) in
                                Some (if truthy text then text ++ lit " " else [])
                            | Comment _ => Some []
                            end;
                    rest ← walk l';
                    Some (piece ++ rest)
                end) childNodes)) as Hwalk.
  { clear Hresolve. induction childNodes as [|child l IHl]; [done|].
    apply Forall_cons in IH as [Hchild IH], Hbelow as [Hrefs Hbelow].
    destruct (IHl IH Hbelow) as [rest ->].
    destruct child as [t a d v k|d|d]; [|done..].
    by destruct (Hchild ltac:(done) Hrefs) as [piece ->]. }
  cbn [elementToMarkdown references] in *.
  apply Forall_app in Hresolve as [Hown _].
  repeat match goal with
    | |- is_Some (Some _) => done
    | |- is_Some (if ?b then _ else _) => destruct b eqn:?
    end; try done.
  - destruct (getAttribute attrs (lit "href")) as [href|]; [|done].
    destruct (truthy href && negb (startsWith href (lit "javascript:"))
              && negb (startsWith href (lit "mailto:"))) eqn:Hallowed; [|done].
    change (option_list (Some href)) with [href] in Hown.
    rewrite filter_cons_True in Hown by (apply Is_true_true; done).
    apply Forall_cons in Hown as [[url ->] _]. done.
  - destruct (getAttribute attrs (lit "src")) as [src|]; [|done].
    destruct (truthy src) eqn:Hsrc; [|done].
    change (option_list (Some src)) with [src] in Hown.
    rewrite filter_cons_True in Hown by (apply Is_true_true; done).
    apply Forall_cons in Hown as [[url ->] _]. done.
Qed.

End ExtractorRaises.

(** ** More on the links of a page *)

Section LinkProperties.
Context `{URLClass}.

Lemma elem_of_uniqueLinks (links : list jsstring) (link : jsstring) :
  link ∈ uniqueLinks links ↔ link ∈ links.
Proof.
  induction links as [|x links IH]; simpl; [done|].
  rewrite !elem_of_cons, list_elem_of_filter, IH.
  destruct (decide (link = x)); naive_solver.
Qed.






Lemma enqueueLinks_app visitedUrls depth urlQueue links :
  enqueueLinks visitedUrls depth urlQueue links
  = urlQueue ++ ((λ link, (link, (depth + 1)%Z))
                   <$> filter (λ link, removeFragment link ∉ visitedUrls) links).
Proof.
  unfold enqueueLinks. revert urlQueue.
  induction links as [|link links IH]; intros urlQueue; simpl.
  - by rewrite app_nil_r.
  - rewrite IH. case_decide as Hseen.
    + by rewrite filter_cons_False by naive_solver.
    + rewrite filter_cons_True by done. by rewrite <- app_assoc.
Qed.

End LinkProperties.

(** ** The books of the crawl loop *)

Section LedgerProperties.
Context `{URLClass}.
Variable browser : nat → jsstring → PageOutcome.

Lemma harvested_more pages page entry :
  harvested pages entry → harvested (pages ++ [page]) entry.
Proof.
  intros (parent & Hin & Hrest). exists parent. split; [|done].
  apply elem_of_app. by left.
Qed.

Lemma ledger_start (targetUrl : jsstring) (maxDepth0 : Z) :
  ledger (removeFragment targetUrl) (start targetUrl maxDepth0).
Proof.
  split; simpl; try done.
  - intros entry Hin. by apply elem_of_nil in Hin.
  - repeat constructor.
  - apply Forall_singleton. simpl. lia.
  - apply Forall_singleton. by left.
  - by apply Forall_singleton.
Qed.

Lemma ledger_at_loop_head seed (s : Crawl) :
  match phase s with
  | AtLoopHead | InPage _ _ _ => True
  | _ => False
  end →
  ledger seed s → ledger seed (at_phase AtLoopHead s).
Proof.
  intros Hphase [Hvisited Horiginal Horder Hwindow Hcurrent Horigin Hdepths Hnormalized Hdocuments Hshots].
  split; simpl; try done.
  - destruct (phase s) as [|currentUrl depth ?| | |]; try done.
    destruct (urlQueue s) as [|next rest] eqn:Hqueue; [done|].
    assert ((depth ≤ next.2)%Z) as Hnext.
    { apply (StronglySorted_app_1_elem_of _ _ _ (currentUrl, depth) next Horder).
      - by apply last_Some_elem_of.
      - apply list_elem_of_here. }
    eapply Forall_impl; [done|]. simpl. intros entry. lia.
  - destruct Hdocuments as [Hnorm Hsub]. split; [done|].
    destruct (phase s); try done.
    destruct Hsub as (before & -> & Hsub). by apply sublist_inserts_r.
  - by destruct (phase s).
Qed.

Lemma ledger_dequeue seed (s : Crawl) :
  phase s = AtLoopHead → ledger seed s → ledger seed (dequeue browser s).
Proof.
  intros Hhead [Hvisited Horiginal Horder Hwindow Hcurrent Horigin Hdepths Hnormalized Hdocuments Hshots].
  rewrite Hhead in Hwindow, Hshots, Hdocuments. unfold dequeue.
  destruct Hdocuments as [Hnorm Hsub].
  destruct (urlQueue s) as [|[currentUrl depth] rest] eqn:Hqueue.
  { split; simpl; rewrite ?Hqueue; done. }
  assert (StronglySorted shallower (processed s ++ rest)) as Horder'.
  { apply StronglySorted_app in Horder as (Hcross & Hdone & Hpending).
    apply StronglySorted_cons in Hpending as [_ Hpending].
    apply StronglySorted_app. split; [|done].
    intros x1 x2 Hx1 Hx2. apply Hcross; [done|]. by apply list_elem_of_further. }
  assert (Forall (λ entry, (depth ≤ entry.2 ≤ depth + 1)%Z) rest) as Hrest.
  { apply StronglySorted_app_1_r, StronglySorted_cons in Horder as [Hfirst _].
    apply Forall_cons in Hwindow as [_ Hwindow]. simpl in Hwindow.
    rewrite Forall_forall in Hfirst, Hwindow |- *. intros entry Hin.
    specialize (Hfirst entry Hin). specialize (Hwindow entry Hin).
    unfold shallower in Hfirst. simpl in Hfirst. lia. }
  assert (match rest with
          | [] => True
          | next :: _ => Forall (λ entry, (entry.2 ≤ next.2 + 1)%Z) rest
          end) as Hwindow'.
  { destruct rest as [|next rest']; [done|].
    pose proof (Forall_inv Hrest) as Hnext. simpl in Hnext.
    eapply Forall_impl; [exact Hrest|]. simpl. intros entry. lia. }
  assert (Forall (λ entry, entry = (seed, 0%Z) ∨ harvested (processed s) entry)
            (processed s ++ rest)) as Horigin'.
  { rewrite Forall_app in Horigin |- *. destruct Horigin as [Hdone Hpending].
    split; [done|]. by apply Forall_cons in Hpending as [_ Hpending]. }
  assert (Forall (λ entry, (0 ≤ entry.2)%Z) (processed s ++ rest)) as Hdepths'.
  { rewrite Forall_app in Hdepths |- *. destruct Hdepths as [Hdone Hpending].
    split; [done|]. by apply Forall_cons in Hpending as [_ Hpending]. }
  destruct (decide (removeFragment currentUrl ∈ visitedUrls s)) as [Hseen|Hnew].
  { by split. }
  destruct (depth >? maxDepth (metadata s))%Z eqn:Hdeep.
  { by split. }
  split; cbn [urlQueue visitedUrls originalUrls metadata processed documents
               screenshots phase].
  - rewrite Hvisited, fmap_app, list_to_set_app_L. unfold normalized at 3.
    set_solver.
  - intros entry [Hin|Hin%list_elem_of_singleton]%elem_of_app.
    + rewrite lookup_insert_ne; [by apply Horiginal|].
      intros Hsame. apply Hnew. rewrite Hsame, Hvisited.
      apply elem_of_list_to_set, list_elem_of_fmap. by exists entry.
    + subst entry. by rewrite lookup_insert_eq.
  - by rewrite <- app_assoc.
  - destruct (browser _ _); simpl.
    1: done.
    all: eapply Forall_impl; [exact Hrest|]; simpl; intros entry; lia.
  - destruct (browser _ _); try done; by rewrite last_snoc.
  - rewrite <- app_assoc. simpl. eapply Forall_impl; [exact Horigin|].
    simpl. intros entry [Hseed|Hharvested]; [by left|].
    right. by apply harvested_more.
  - by rewrite <- app_assoc.
  - by destruct (browser _ _).
  - split; [done|]. destruct (browser _ _).
    1: by apply sublist_inserts_r.
    all: by eexists.
  - by destruct (browser _ _).
Qed.

Lemma ledger_render seed (s : Crawl) currentUrl depth normalizedUrl :
  phase s = InPage currentUrl depth normalizedUrl →
  ledger seed s →
  ledger seed (render browser currentUrl depth normalizedUrl s).
Proof.
  intros Hin Hled. assert (ledger seed (at_phase AtLoopHead s)) as Hskip.
  { apply ledger_at_loop_head; [by rewrite Hin | done]. }
  destruct Hled as [Hvisited Horiginal Horder Hwindow Hcurrent Horigin Hdepths Hnormalized Hdocuments Hshots].
  rewrite Hin in Hwindow, Hcurrent, Hshots, Hnormalized, Hdocuments.
  destruct Hdocuments as (Hnorm & before & Hbefore & Hsub).
  unfold render. destruct (browser _ _); try done.
  all: destruct (pageFileName normalizedUrl) as [fileName|]; [|done].
  all: split; simpl; try done.
  all: try by eexists _, _.
  all: split; [apply Forall_app; split; [done|]; by apply Forall_singleton|].
  all: rewrite fmap_app, Hbefore; by apply sublist_app.
Qed.

Lemma ledger_harvest seed (s : Crawl) currentUrl depth fileName :
  phase s = Written currentUrl depth fileName →
  ledger seed s →
  ledger seed (harvest browser currentUrl depth fileName s).
Proof.
  intros Hin [Hvisited Horiginal Horder Hwindow Hcurrent Horigin Hdepths Hnormalized Hdocuments Hshots].
  rewrite Hin in Hwindow, Hcurrent, Hshots, Hdocuments.
  destruct Hshots as (docs & d & Hdocs & Hname & Hshots).
  assert (ledger seed (at_phase AtLoopHead s)) as Hfailed.
  { split; simpl; try done.
    - destruct (urlQueue s) as [|next rest] eqn:Hqueue; [done|].
      assert ((depth ≤ next.2)%Z) as Hnext.
      { apply (StronglySorted_app_1_elem_of _ _ _ (currentUrl, depth) next Horder).
        - by apply last_Some_elem_of.
        - apply list_elem_of_here. }
      eapply Forall_impl; [done|]. simpl. intros entry. lia.
    - rewrite Hdocs. unfold screenshotNames. rewrite fmap_app.
      by apply sublist_inserts_r. }
  unfold harvest. destruct (browser _ _) as [| | | |hrefs] eqn:Houtcome; try done.
  all: assert (screenshots s ++ [screenshotName fileName]
                 `sublist_of` screenshotNames (documents s)) as Hshots'
    by (rewrite Hdocs; unfold screenshotNames; rewrite fmap_app; simpl;
        rewrite Hname; by apply sublist_app).
  - (* the link query fails *)
    destruct Hfailed as [? ? ? Hwindow' ? ? ? ? ? ?]. simpl in Hwindow'.
    by destruct (depth <? maxDepth (metadata s))%Z; split.
  - (* the page completes *)
    destruct (depth <? maxDepth (metadata s))%Z eqn:Hshallow.
    2:{ destruct Hfailed as [? ? ? Hwindow' ? ? ? ? ? ?]. by split. }
    rewrite enqueueLinks_app.
    set (links := filter _ (uniqueLinks _)).
    set (new := (λ link, (link, (depth + 1)%Z)) <$> links).
    assert (Forall (λ entry : jsstring * Z, entry.2 = (depth + 1)%Z) new) as Hnew.
    { apply Forall_fmap, Forall_forall. by intros link _. }
    assert (∀ entry, entry ∈ urlQueue s → (depth ≤ entry.2)%Z) as Hfrom.
    { intros entry Hentry.
      apply (StronglySorted_app_1_elem_of _ _ _ (currentUrl, depth) entry Horder);
        [by apply last_Some_elem_of | done]. }
    split; simpl; try done.
    + rewrite app_assoc. apply StronglySorted_app_2; [|done|].
      * intros x1 x2 Hx1 Hx2. rewrite Forall_forall in Hnew.
        unfold shallower. rewrite (Hnew x2 Hx2).
        apply elem_of_app in Hx1 as [Hx1|Hx1].
        -- assert (shallower x1 (currentUrl, depth)) as Hle.
           { apply last_Some in Hcurrent as [before Hbefore].
             rewrite Hbefore in Hx1, Horder.
             apply elem_of_app in Hx1 as [Hx1|Hx1%list_elem_of_singleton].
             - apply StronglySorted_app_1_l in Horder.
               apply (StronglySorted_app_1_elem_of _ _ _ _ _ Horder Hx1).
               apply list_elem_of_here.
             - subst x1. unfold shallower. lia. }
           unfold shallower in Hle. simpl in Hle. lia.
        -- rewrite Forall_forall in Hwindow. by apply Hwindow.
      * clear -Hnew. induction Hnew as [|x l Hx Hl IH]; constructor; [done|].
        eapply Forall_impl; [exact Hl|]. simpl. intros y Hy. unfold shallower. lia.
    + destruct (urlQueue s ++ new) as [|next rest] eqn:Hall; [done|].
      rewrite <- Hall. apply Forall_app. split.
      * assert ((depth ≤ next.2)%Z) as Hnext.
        { assert (next ∈ urlQueue s ++ new) as Hin' by (rewrite Hall; apply list_elem_of_here).
          apply elem_of_app in Hin' as [Hin'|Hin']; [by apply Hfrom|].
          rewrite Forall_forall in Hnew. rewrite (Hnew next Hin'). lia. }
        eapply Forall_impl; [exact Hwindow|]. simpl. intros entry. lia.
      * assert ((depth ≤ next.2)%Z) as Hnext.
        { assert (next ∈ urlQueue s ++ new) as Hin' by (rewrite Hall; apply list_elem_of_here).
          apply elem_of_app in Hin' as [Hin'|Hin']; [by apply Hfrom|].
          rewrite Forall_forall in Hnew. rewrite (Hnew next Hin'). lia. }
        eapply Forall_impl; [exact Hnew|]. simpl. intros entry. lia.
    + rewrite app_assoc. apply Forall_app. split; [done|].
      apply Forall_fmap, Forall_forall. intros link Hlink. right.
      exists (currentUrl, depth). split; [by apply last_Some_elem_of|].
      split; [done|]. simpl.
      subst links. apply list_elem_of_filter in Hlink as [_ Hlink].
      apply (proj1 (elem_of_uniqueLinks _ _)) in Hlink. unfold pageLinks in Hlink.
      apply list_elem_of_filter in Hlink as [Hsame Hlink].
      apply list_elem_of_filter in Hlink as [Hallowed _].
      split; by apply Is_true_true.
    + rewrite app_assoc. apply Forall_app. split; [done|].
      assert ((0 ≤ depth)%Z) as Hdepth.
      { rewrite Forall_forall in Hdepths.
        apply (Hdepths (currentUrl, depth)), elem_of_app. left.
        by apply last_Some_elem_of. }
      eapply Forall_impl; [exact Hnew|]. intros entry Hentry. simpl in *. lia.
Qed.

Lemma ledger_step seed (s : Crawl) : ledger seed s → ledger seed (step browser s).
Proof.
  intros Hled. unfold step. destruct (phase s) eqn:Hphase; try done.
  - by apply ledger_dequeue.
  - by apply ledger_render.
  - by apply ledger_harvest.
Qed.

Lemma ledger_run (targetUrl : jsstring) (maxDepth0 : Z) (n : nat) :
  ledger (removeFragment targetUrl) (scrapeToMarkdown browser targetUrl maxDepth0 n).
Proof.
  unfold scrapeToMarkdown. induction n as [|n IH]; [apply ledger_start|].
  rewrite run_S. by apply ledger_step.
Qed.

End LedgerProperties.

(** ** The books of a run *)

Section BookProperties.
Context `{URLClass}.
Variable browser : nat → jsstring → PageOutcome.

(** X7: the crawl is breadth first: the processed entries followed by the
    entries of the queue are in the order of their depths, so the entries
    are processed by non-decreasing depth and no entry of the queue is
    above a processed one. *)
Theorem breadth_first (targetUrl : jsstring) (maxDepth0 : Z) (n : nat) :
  let s := scrapeToMarkdown browser targetUrl maxDepth0 n in
  StronglySorted shallower (processed s ++ urlQueue s).
Proof. apply (led_order _ _ (ledger_run browser targetUrl maxDepth0 n)). Qed.

Lemma visitedUrls_step (s : Crawl) : visitedUrls s ⊆ visitedUrls (step browser s).
Proof.
  unfold step. destruct (phase s); try done.
  - unfold dequeue. destruct (urlQueue s) as [|[currentUrl depth] rest]; [done|].
    destruct (decide _); [done|]. destruct (_ >? _)%Z; [done|]. simpl. set_solver.
  - unfold render. destruct (browser _ _); try done.
    all: by destruct (pageFileName _).
  - unfold harvest. by destruct (browser _ _).
Qed.

Lemma run_add (n m : nat) (s : Crawl) :
  run browser (n + m) s = run browser m (run browser n s).
Proof.
  induction m as [|m IH]; [by rewrite Nat.add_0_r|].
  by rewrite Nat.add_succ_r, !run_S, IH.
Qed.

(** X8: the visited set is the set of the normalized addresses of the
    processed entries, and it never shrinks; [pagesScraped] is its size
    and the number of processed entries, and [markdownFiles] the number
    of documents written. *)
Theorem visited_books (targetUrl : jsstring) (maxDepth0 : Z) (n : nat) :
  let s := scrapeToMarkdown browser targetUrl maxDepth0 n in
  visitedUrls s = list_to_set (normalized <$> processed s)
  ∧ size (visitedUrls s) = pagesScraped (metadata s)
  ∧ pagesScraped (metadata s) = length (processed s)
  ∧ markdownFiles (metadata s) = length (documents s)
  ∧ ∀ m, visitedUrls s ⊆ visitedUrls (scrapeToMarkdown browser targetUrl maxDepth0 (n + m)).
Proof.
  intros s.
  pose proof (invariant_run browser targetUrl maxDepth0 n) as Hinv.
  pose proof (ledger_run browser targetUrl maxDepth0 n) as Hled. fold s in Hinv, Hled.
  split; [apply (led_visited _ _ Hled)|]. split; [|split; [|split]].
  - rewrite (led_visited _ _ Hled), size_list_to_set by apply (inv_once _ _ Hinv).
    by rewrite length_fmap, (inv_opened _ _ Hinv).
  - apply (inv_opened _ _ Hinv).
  - apply (inv_written _ _ Hinv).
  - intros m. unfold scrapeToMarkdown. rewrite run_add. fold (scrapeToMarkdown browser targetUrl maxDepth0 n). fold s.
    induction m as [|m IH]; [done|]. rewrite run_S.
    etrans; [exact IH | apply visitedUrls_step].
Qed.

(** X9: the address recorded for the normalized address of a processed
    entry is the address of the entry, as it was found. *)
Theorem original_address_recorded (targetUrl : jsstring) (maxDepth0 : Z) (n : nat) :
  let s := scrapeToMarkdown browser targetUrl maxDepth0 n in
  Forall (λ entry, originalUrls s !! normalized entry = Some entry.1) (processed s).
Proof.
  intros s. apply Forall_forall.
  apply (led_original _ _ (ledger_run browser targetUrl maxDepth0 n)).
Qed.

(** X10: every entry that is processed or in the queue is the seed at the
    depth 0, or was harvested: it is one level below a processed page,
    among whose links it is neither empty nor a [javascript:] or [mailto:]
    address, and passed the same-domain filter. *)
Theorem entries_harvested (targetUrl : jsstring) (maxDepth0 : Z) (n : nat) :
  let s := scrapeToMarkdown browser targetUrl maxDepth0 n in
  Forall (λ entry, entry = (removeFragment targetUrl, 0%Z)
                   ∨ harvested (processed s) entry)
    (processed s ++ urlQueue s).
Proof. apply (led_origin _ _ (ledger_run browser targetUrl maxDepth0 n)). Qed.

(** X11: the screenshots are those of written documents, in the order of
    the documents and at most one for each. *)
Theorem screenshots_of_documents (targetUrl : jsstring) (maxDepth0 : Z) (n : nat) :
  let s := scrapeToMarkdown browser targetUrl maxDepth0 n in
  screenshots s `sublist_of` screenshotNames (documents s)
  ∧ (length (screenshots s) ≤ markdownFiles (metadata s))%nat.
Proof.
  intros s.
  pose proof (invariant_run browser targetUrl maxDepth0 n) as Hinv.
  pose proof (ledger_run browser targetUrl maxDepth0 n) as Hled. fold s in Hinv, Hled.
  assert (screenshots s `sublist_of` screenshotNames (documents s)) as Hsub.
  { pose proof (led_shots _ _ Hled) as Hshots. destruct (phase s); try done.
    destruct Hshots as (docs & d & -> & _ & Hshots).
    unfold screenshotNames. rewrite fmap_app. by apply sublist_inserts_r. }
  split; [done|]. apply sublist_length in Hsub.
  unfold screenshotNames in Hsub. rewrite length_fmap in Hsub.
  by rewrite (inv_written _ _ Hinv).
Qed.

(** X17: the documents are written for processed entries, in the order in
    which these were processed and at most one for each, under the
    normalized address of the entry; so no two documents have the same
    normalized address. *)
Theorem documents_of_entries (targetUrl : jsstring) (maxDepth0 : Z) (n : nat) :
  let s := scrapeToMarkdown browser targetUrl maxDepth0 n in
  documentEntry <$> documents s `sublist_of` processed s
  ∧ Forall (λ d, doc_normalizedUrl d = normalized (documentEntry d)) (documents s)
  ∧ NoDup (doc_normalizedUrl <$> documents s).
Proof.
  intros s.
  pose proof (invariant_run browser targetUrl maxDepth0 n) as Hinv.
  pose proof (ledger_run browser targetUrl maxDepth0 n) as Hled. fold s in Hinv, Hled.
  destruct (led_documents _ _ Hled) as [Hnorm Hsub].
  assert (documentEntry <$> documents s `sublist_of` processed s) as Hentries.
  { destruct (phase s); try done.
    destruct Hsub as (before & -> & Hsub). by apply sublist_inserts_r. }
  split; [done|]. split; [done|].
  assert (doc_normalizedUrl <$> documents s
          = normalized <$> (documentEntry <$> documents s)) as ->.
  { rewrite <- list_fmap_compose. apply Forall_fmap_ext_1.
    eapply Forall_impl; [exact Hnorm|]. by intros d ->. }
  eapply sublist_NoDup; [apply (inv_once _ _ Hinv)|].
  by apply fmap_sublist.
Qed.

End BookProperties.

(** ** The index and the end of a run *)

Section IndexProperties.
Context `{URLClass}.
Variable browser : nat → jsstring → PageOutcome.

Lemma indexFileName_None (normalizedUrl : jsstring) :
  indexFileName normalizedUrl = None ↔ URL_new normalizedUrl = None.
Proof. unfold indexFileName. by destruct (URL_new normalizedUrl). Qed.

Lemma indexEntry_None originalUrls (normalizedUrl : jsstring) :
  indexEntry originalUrls normalizedUrl = None ↔ URL_new normalizedUrl = None.
Proof.
  rewrite <- indexFileName_None. unfold indexEntry.
  by destruct (indexFileName normalizedUrl).
Qed.

Lemma createIndexMarkdown_None visitedUrls originalUrls :
  createIndexMarkdown visitedUrls originalUrls = None ↔
    ∃ normalizedUrl, normalizedUrl ∈ visitedUrls ∧ URL_new normalizedUrl = None.
Proof.
  unfold createIndexMarkdown. rewrite mapM_None, Exists_exists.
  split; intros (x & Hx & Hnone); exists x.
  - rewrite merge_sort_Permutation, elem_of_elements in Hx.
    by rewrite <- (indexEntry_None originalUrls).
  - rewrite merge_sort_Permutation, elem_of_elements.
    by rewrite (indexEntry_None originalUrls).
Qed.

Lemma terminal_step (s : Crawl) : terminal s = true → step browser s = s.
Proof. unfold terminal, step. by destruct (phase s). Qed.

Lemma terminal_run (n : nat) (s : Crawl) : terminal s = true → run browser n s = s.
Proof.
  intros Hs. induction n as [|n IH]; [done|].
  by rewrite run_S, IH, terminal_step.
Qed.

(** The order of the index is a total order on strings. *)
Lemma code_unit_le_transitive (a b c : jsstring) :
  code_unit_le a b = true → code_unit_le b c = true → code_unit_le a c = true.
Proof.
  revert b c. induction a as [|x a IH]; intros [|y b] [|z c]; simpl; try done.
  rewrite !orb_true_iff, !andb_true_iff, !N.ltb_lt, !N.eqb_eq.
  intros [Hxy|[-> Hab]] [Hyz|[-> Hbc]].
  - left. lia.
  - by left.
  - by left.
  - right. split; [done|]. by apply (IH b).
Qed.

Lemma code_unit_le_total (a b : jsstring) :
  code_unit_le a b = true ∨ code_unit_le b a = true.
Proof.
  revert b. induction a as [|x a IH]; intros [|y b]; simpl; auto.
  rewrite !orb_true_iff, !andb_true_iff, !N.ltb_lt, !N.eqb_eq.
  destruct (N.lt_trichotomy x y) as [Hlt|[->|Hgt]]; [by left; left| |by right; left].
  destruct (IH b); [left|right]; by right.
Qed.

Lemma StronglySorted_fmap_inv {A B} (f : A → B) (R : relation B) (l : list A) :
  StronglySorted R (f <$> l) → StronglySorted (λ a b, R (f a) (f b)) l.
Proof.
  induction l as [|x l IH]; intros Hsorted; [constructor|].
  rewrite fmap_cons in Hsorted.
  apply StronglySorted_inv in Hsorted as [Hrest Hhead].
  constructor; [by apply IH|]. rewrite Forall_fmap in Hhead. exact Hhead.
Qed.

(** X12: when the run is over with an index, the index has one entry for
    each processed entry, failed pages included, in the order of the
    normalized addresses by code units: the address of the entry as it
    was found, and the link to the file name of its normalized address;
    the run is over with no index exactly when the normalized address of
    a processed entry does not parse. *)
Theorem index_of_processed (targetUrl : jsstring) (maxDepth0 : Z) (n : nat) index :
  let s := scrapeToMarkdown browser targetUrl maxDepth0 n in
  phase s = Finished index →
  (index = None ↔ Exists (λ entry, URL_new (normalized entry) = None) (processed s))
  ∧ ∀ entries, index = Some entries →
      Forall (λ entry, is_Some (pageFileName (normalized entry))) (processed s)
      ∧ ∃ ordered,
          ordered ≡ₚ processed s
          ∧ StronglySorted (λ a b, code_unit_le (normalized a) (normalized b)) ordered
          ∧ entries = (λ entry, indexLine entry
                                  (default [] (pageFileName (normalized entry))))
                        <$> ordered.
Proof.
  intros s Hphase.
  pose proof (invariant_run browser targetUrl maxDepth0 n) as Hinv.
  pose proof (ledger_run browser targetUrl maxDepth0 n) as Hled. fold s in Hinv, Hled.
  pose proof (inv_phase _ _ Hinv) as Hindex. rewrite Hphase in Hindex.
  pose proof (led_visited _ _ Hled) as Hvisited.
  split.
  - rewrite Hindex, createIndexMarkdown_None, Exists_exists. split.
    + intros (x & Hx & Hnone). rewrite Hvisited, elem_of_list_to_set in Hx.
      apply list_elem_of_fmap in Hx as (entry & -> & Hin). by exists entry.
    + intros (entry & Hin & Hnone). exists (normalized entry). split; [|done].
      rewrite Hvisited, elem_of_list_to_set. apply list_elem_of_fmap. by exists entry.
  - intros entries ->. symmetry in Hindex. unfold createIndexMarkdown in Hindex.
    apply mapM_Some_1 in Hindex.
    set (sorted := merge_sort _ _) in Hindex.
    assert (sorted ≡ₚ normalized <$> processed s) as Hsorted.
    { apply NoDup_Permutation.
      - subst sorted. rewrite merge_sort_Permutation. apply NoDup_elements.
      - apply (inv_once _ _ Hinv).
      - intros x. subst sorted.
        by rewrite merge_sort_Permutation, elem_of_elements, Hvisited, elem_of_list_to_set. }
    assert (Forall (λ entry, is_Some (pageFileName (normalized entry))) (processed s))
      as Hnames.
    { apply Forall_forall. intros entry Hin.
      assert (normalized entry ∈ sorted) as Hx.
      { rewrite Hsorted. apply list_elem_of_fmap. by exists entry. }
      apply list_elem_of_lookup_1 in Hx as [i Hi].
      destruct (Forall2_lookup_l _ _ _ _ _ Hindex Hi) as (line & _ & Hline).
      unfold indexEntry in Hline. change indexFileName with pageFileName in Hline.
      by destruct (pageFileName (normalized entry)). }
    split; [done|].
    set (line := λ x, ((match originalUrls s !! x with
                        | Some o => if truthy o then o else x
                        | None => x
                        end), lit "./" ++ default [] (pageFileName x))).
    assert (entries = line <$> sorted) as ->.
    { apply list_eq_Forall2, Forall2_fmap_r.
      apply Forall2_flip. eapply Forall2_impl; [exact Hindex|].
      intros x y Hmade. unfold indexEntry in Hmade.
      change indexFileName with pageFileName in Hmade. subst line. simpl.
      destruct (pageFileName x); [|done]. by injection Hmade as <-. }
    destruct (Permutation.Permutation_map_inv normalized (processed s) Hsorted)
      as (ordered & Hordered & Hsame).
    change (map normalized ordered) with (normalized <$> ordered) in Hordered.
    exists ordered. split; [by symmetry|]. split.
    { apply (StronglySorted_fmap_inv normalized (λ a b, code_unit_le a b)).
      rewrite <- Hordered. subst sorted.
      apply StronglySorted_merge_sort.
      - intros a b c Hab%Is_true_true Hbc%Is_true_true.
        apply Is_true_true. by apply (code_unit_le_transitive a b c).
      - intros a b. destruct (code_unit_le_total a b) as [Hab|Hba];
          [left|right]; by apply Is_true_true. }
    rewrite Hordered, <- list_fmap_compose.
    apply Forall_fmap_ext_1, Forall_forall. intros entry Hin.
    subst line. unfold indexLine. simpl.
    rewrite (led_original _ _ Hled entry); [done|]. by rewrite Hsame.
Qed.

Lemma step_page_unnamed (s : Crawl) currentUrl depth normalizedUrl :
  phase s = InPage currentUrl depth normalizedUrl →
  pageFileName normalizedUrl = None →
  step browser s = at_phase AtLoopHead s.
Proof.
  intros Hphase Hname. unfold step. rewrite Hphase. unfold render.
  rewrite Hname. by destruct (browser _ _).
Qed.

Lemma step_finishes (s : Crawl) :
  phase s = AtLoopHead →
  urlQueue s = [] →
  step browser s
  = at_phase (Finished (createIndexMarkdown (visitedUrls s) (originalUrls s))) s.
Proof. intros Hphase Hqueue. unfold step. rewrite Hphase. unfold dequeue. by rewrite Hqueue. Qed.

(** X13: a run from an address that does not parse, to a depth that is
    not negative, is over after three steps with one page counted, no
    document and no index: the index builder raises on the address. *)
Theorem unparseable_seed (targetUrl : jsstring) (maxDepth0 : Z) (n : nat) :
  URL_new targetUrl = None →
  (0 ≤ maxDepth0)%Z →
  (3 ≤ n)%nat →
  let s := scrapeToMarkdown browser targetUrl maxDepth0 n in
  (phase s = Finished None ∨ phase s = Aborted)
  ∧ pagesScraped (metadata s) = 1%nat
  ∧ documents s = [].
Proof.
  intros Hparse Hdepth Hn s. subst s. unfold scrapeToMarkdown.
  replace n with (3 + (n - 3))%nat by lia. rewrite run_add.
  set (s3 := run browser 3 (start targetUrl maxDepth0)).
  assert ((phase s3 = Finished None ∨ phase s3 = Aborted)
          ∧ pagesScraped (metadata s3) = 1%nat ∧ documents s3 = []) as Hs3.
  { subst s3.
    change (run browser 3 ?s) with (step browser (step browser (step browser s))).
    assert (removeFragment targetUrl = targetUrl) as Hseed
      by by apply removeFragment_unparseable.
    set (s0 := start targetUrl maxDepth0).
    assert (phase s0 = AtLoopHead) as Hphase0 by done.
    assert (urlQueue s0 = [(targetUrl, 0%Z)]) as Hqueue0
      by (subst s0; unfold start; by rewrite Hseed).
    pose proof (step_opens browser s0 targetUrl 0%Z [] Hphase0 Hqueue0) as Hs1.
    specialize (Hs1 ltac:(apply not_elem_of_empty) ltac:(simpl; lia)).
    remember (step browser s0) as s1 eqn:Es1. clear Es1.
    cbv zeta in Hs1. change (S (pagesScraped (metadata s0))) with 1%nat in Hs1.
    assert (pagesScraped (metadata s1) = 1%nat ∧ documents s1 = []
            ∧ urlQueue s1 = []
            ∧ removeFragment targetUrl ∈ visitedUrls s1) as (Hcount & Hdocs & Hqueue & Hseen).
    { rewrite Hs1. cbn. repeat split. set_solver. }
    destruct (browser 1%nat targetUrl) eqn:Hpage.
    { (* the renderer fails *)
      assert (phase s1 = Aborted) as Haborted by by rewrite Hs1.
      assert (step browser s1 = s1) as Hfixed
        by (apply terminal_step; unfold terminal; by rewrite Haborted).
      rewrite !Hfixed.
      repeat split; [by right|done..]. }
    all: assert (phase s1 = InPage targetUrl 0%Z (removeFragment targetUrl))
           as Hphase1 by by rewrite Hs1.
    all: rewrite (step_page_unnamed s1 _ _ _ Hphase1)
           by (rewrite Hseed; unfold pageFileName; by rewrite Hparse).
    all: rewrite (step_finishes (at_phase AtLoopHead s1)) by done.
    all: cbn [phase metadata documents at_phase visitedUrls originalUrls].
    all: split; [|done]; left; f_equal.
    all: apply createIndexMarkdown_None; exists targetUrl; split; [|done].
    all: by rewrite <- Hseed. }
  rewrite terminal_run; [done|].
  unfold terminal. by destruct Hs3 as [[-> | ->] _].
Qed.

(** X15: the page of an entry below the depth limit that completes puts its
    links at the end of the queue, which is otherwise left as it is: the
    links that pass the filters, each once, in the order of the page, one
    level below the page, and only those whose normalized address has not
    been visited. *)
Theorem harvest_appends (s : Crawl) currentUrl depth fileName hrefs :
  phase s = Written currentUrl depth fileName →
  browser (pagesScraped (metadata s)) currentUrl = PageCompletes hrefs →
  (depth < maxDepth (metadata s))%Z →
  urlQueue (step browser s)
  = urlQueue s
      ++ ((λ link, (link, (depth + 1)%Z))
            <$> filter (λ link, removeFragment link ∉ visitedUrls s)
                  (uniqueLinks (pageLinks currentUrl hrefs))).
Proof.
  intros Hphase Hpage Hdepth. unfold step. rewrite Hphase. unfold harvest.
  rewrite Hpage. cbn [urlQueue].
  assert ((depth <? maxDepth (metadata s))%Z = true) as -> by lia.
  apply enqueueLinks_app.
Qed.

(** X16: the file name of a page is a name: it holds no [/] and ends with
    [".md"]; and none is derived exactly when the normalized address does
    not parse. *)
Theorem fileName_is_a_name (normalizedUrl : jsstring) :
  match pageFileName normalizedUrl with
  | Some fileName =>
      Forall (λ c, c ≠ SLASH) fileName ∧ lit ".md" `suffix_of` fileName
  | None => URL_new normalizedUrl = None
  end.
Proof.
  destruct (fileName_agreement normalizedUrl) as [_ ->].
  destruct (URL_new normalizedUrl) as [parsedUrl|]; [|done]. simpl.
  unfold spec_baseName. set (replaced := _ <$> URL_pathname parsedUrl).
  assert (Forall (λ c, c ≠ SLASH) replaced) as Hreplaced.
  { subst replaced. apply Forall_fmap, Forall_forall. intros c _. simpl.
    by case_decide. }
  set (stripped := match replaced with [] => [] | _ :: _ => _ end).
  assert (Forall (λ c, c ≠ SLASH) stripped) as Hstripped.
  { subst stripped. destruct Hreplaced as [|c rest Hc Hrest]; [constructor|].
    case_decide; [done | by constructor]. }
  set (named := if decide (stripped = []) then _ else _).
  assert (Forall (λ c, c ≠ SLASH) named) as Hnamed.
  { subst named. case_decide; [by repeat constructor | done]. }
  case_decide as Hsuffix; [done|]. split.
  - apply Forall_app. split; [done | by repeat constructor].
  - by apply suffix_app_r.
Qed.

End IndexProperties.

(** ** The crawl loop terminates *)

Section Termination.
Context `{URLClass}.
Variable browser : nat → jsstring → PageOutcome.





End Termination.

(** ** The smallest depth limits *)

Section DepthLimits.
Context `{URLClass}.
Variable browser : nat → jsstring → PageOutcome.

(** X18: with a negative depth limit the seed itself is deeper than the
    limit: it is skipped at line 80, no page is opened, counted or
    written in any state of the run, and after two steps the run is over
    with an empty index. *)
Theorem negative_limit_opens_nothing (targetUrl : jsstring) (maxDepth0 : Z) (n : nat) :
  (maxDepth0 < 0)%Z →
  let s := scrapeToMarkdown browser targetUrl maxDepth0 n in
  processed s = []
  ∧ pagesScraped (metadata s) = 0%nat
  ∧ documents s = []
  ∧ ((2 ≤ n)%nat → phase s = Finished (Some [])).
Proof.
  intros Hnegative s.
  pose proof (invariant_run browser targetUrl maxDepth0 n) as Hinv.
  pose proof (ledger_run browser targetUrl maxDepth0 n) as Hled.
  fold s in Hinv, Hled.
  assert (processed s = []) as Hnone.
  { destruct (processed s) as [|entry rest] eqn:Hprocessed; [done|].
    pose proof (inv_depth _ _ Hinv) as Hdepth.
    pose proof (led_depths _ _ Hled) as Hdepths.
    rewrite Hprocessed in Hdepth, Hdepths.
    apply Forall_cons in Hdepth as [Hdepth _].
    apply Forall_app in Hdepths as [Hdepths _].
    apply Forall_cons in Hdepths as [Hdepths _]. lia. }
  split; [done|]. split.
  { by rewrite (inv_opened _ _ Hinv), Hnone. }
  split.
  { pose proof (inv_counters _ _ Hinv) as Hcounters. rewrite Hnone in Hcounters.
    destruct (documents s); [done|].
    destruct (phase s); simpl in Hcounters; lia. }
  intros Hn.
  assert (phase (scrapeToMarkdown browser targetUrl maxDepth0 2) = Finished (Some []))
    as Htwo.
  { unfold scrapeToMarkdown.
    change (run browser 2 (start targetUrl maxDepth0))
      with (step browser (step browser (start targetUrl maxDepth0))).
    assert (step browser (start targetUrl maxDepth0)
            = {| urlQueue := []; visitedUrls := ∅;
                 originalUrls := originalUrls (start targetUrl maxDepth0);
                 metadata := metadata (start targetUrl maxDepth0);
                 processed := []; documents := []; screenshots := [];
                 phase := AtLoopHead |}) as ->.
    { unfold step, dequeue, start.
      cbn [phase urlQueue visitedUrls metadata maxDepth processed documents
           screenshots originalUrls].
      rewrite decide_False by set_solver.
      by replace (0 >? maxDepth0)%Z with true by (symmetry; apply Z.gtb_lt; lia). }
    unfold step, dequeue. cbn [phase urlQueue at_phase visitedUrls].
    unfold createIndexMarkdown. by rewrite elements_empty. }
  subst s. replace n with (2 + (n - 2))%nat by lia.
  unfold scrapeToMarkdown in *. rewrite run_add, terminal_run; [done|].
  unfold terminal. by rewrite Htwo.
Qed.

(** X19: with the depth limit 0 no link is followed, whatever the pages
    hold: in every state of the run the processed entries and the entries
    of the queue are the seed at depth 0, so at most one page is opened
    and at most one document is written. *)
Theorem limit_zero_only_seed (targetUrl : jsstring) (n : nat) :
  let s := scrapeToMarkdown browser targetUrl 0 n in
  Forall (λ entry, entry = (removeFragment targetUrl, 0%Z)) (processed s ++ urlQueue s)
  ∧ (length (processed s) ≤ 1)%nat
  ∧ (length (documents s) ≤ 1)%nat.
Proof.
  intros s.
  pose proof (invariant_run browser targetUrl 0 n) as Hinv.
  pose proof (ledger_run browser targetUrl 0 n) as Hled.
  fold s in Hinv, Hled.
  assert (Forall (λ entry, entry = (removeFragment targetUrl, 0%Z))
            (processed s ++ urlQueue s)) as Hseed.
  { pose proof (led_origin _ _ Hled) as Horigin.
    pose proof (led_depths _ _ Hled) as Hdepths.
    pose proof (inv_depth _ _ Hinv) as Hdone.
    pose proof (inv_queue _ _ Hinv) as Hpending.
    assert (Forall (λ entry, (entry.2 ≤ 0)%Z) (processed s ++ urlQueue s)) as Hflat.
    { apply Forall_app. split; [done|].
      eapply Forall_impl; [exact Hpending|]. simpl. intros entry. lia. }
    rewrite Forall_forall in Horigin, Hdepths, Hflat |- *.
    intros entry Hentry. destruct (Horigin entry Hentry) as [->|Hharvested]; [done|].
    destruct Hharvested as (page & Hpage & Hbelow & _).
    assert (page ∈ processed s ++ urlQueue s) as Hin by (apply elem_of_app; by left).
    specialize (Hdepths page Hin). specialize (Hflat entry Hentry). lia. }
  split; [done|].
  assert (length (processed s) ≤ 1)%nat as Hone.
  { apply Forall_app in Hseed as [Hdone _].
    pose proof (inv_once _ _ Hinv) as Honce.
    destruct (processed s) as [|a [|b rest]]; simpl; [lia..|].
    apply Forall_cons in Hdone as [-> Hdone].
    apply Forall_cons in Hdone as [-> _].
    rewrite !fmap_cons in Honce. apply NoDup_cons in Honce as [Hfresh _].
    exfalso. apply Hfresh. apply list_elem_of_here. }
  split; [done|].
  pose proof (inv_counters _ _ Hinv) as Hcounters.
  destruct (phase s); lia.
Qed.

End DepthLimits.

(** ** The further scenarios *)

Module MoreScenarioFacts.
Import SimpleURL SimpleURLFacts Scenario MoreScenario.

(** X3 on a list with a text between its two items. *)
Lemma unordered_list_rendering_shopping :
  elementToMarkdown seed shoppingList
  = Some (lit "* tea" ++ [LF] ++ lit "* two eggs" ++ [LF; LF]).
Proof.
  exact (unordered_list_rendering seed [] (lit "block") (lit "visible")
           [visibleElement "li" [Text (lit "tea")];
            Text (lit "milk");
            visibleElement "li" [Text (lit "two  eggs")]]
           ltac:(done) ltac:(done)).
Defined.

(** X4 on a list of two items with white space between them. *)
Lemma ordered_list_rendering_recipe :
  elementToMarkdown seed recipe
  = Some (lit "1. A" ++ [LF] ++ lit "2. B" ++ [LF; LF]).
Proof.
  exact (ordered_list_rendering seed [] (lit "block") (lit "visible")
           [visibleElement "li" [Text (lit "A")];
            Text (lit " ");
            visibleElement "li" [Text (lit "B")]]
           ltac:(done) ltac:(done) ltac:(by repeat constructor)).
Defined.

(** X5 on a link and an image whose addresses are relative. *)
Lemma elementToMarkdown_returns_banner :
  references banner = [lit "/about"; lit "logo.png"]
  ∧ is_Some (elementToMarkdown seed banner).
Proof.
  split; [by vm_compute|].
  apply elementToMarkdown_returns.
  - by eexists.
  - assert (references banner = [lit "/about"; lit "logo.png"]) as -> by by vm_compute.
    repeat apply Forall_cons_2; [by vm_compute; eexists.. | apply Forall_nil_2].
Defined.

(** X12 on the crawl of the site, once it is over. *)
Lemma index_of_processed_site :
  let s := scrapeToMarkdown site seed 2 15 in
  let index := [(lit "https://example.com/", lit "./index.md");
                (lit "https://example.com/about", lit "./about.md");
                (lit "https://example.com/notes.md.html", lit "./notes.md.html.md")] in
  phase s = Finished (Some index)
  ∧ Forall (λ entry, is_Some (pageFileName (normalized entry))) (processed s)
  ∧ ∃ ordered,
      ordered ≡ₚ processed s
      ∧ StronglySorted (λ a b, code_unit_le (normalized a) (normalized b)) ordered
      ∧ index = (λ entry, indexLine entry (default [] (pageFileName (normalized entry))))
                  <$> ordered.
Proof.
  intros s index.
  assert (phase s = Finished (Some index)) as Hover by by vm_compute.
  split; [done|].
  exact (proj2 (index_of_processed site seed 2 15 (Some index) Hover) index eq_refl).
Defined.

(** X13 on a browser that opens no page. *)
Lemma unparseable_seed_offline :
  let s := scrapeToMarkdown offline (lit "not an address") 2 3 in
  (phase s = Finished None ∨ phase s = Aborted)
  ∧ pagesScraped (metadata s) = 1%nat
  ∧ documents s = [].
Proof.
  apply (unparseable_seed offline (lit "not an address") 2 3); [by vm_compute | lia | lia].
Defined.

(** X15 on the first page of the site: the address on another host and
    the mail address are not put in the queue, the address with a
    fragment is. *)
Lemma harvest_appends_site :
  let s := scrapeToMarkdown site seed 2 2 in
  phase s = Written (lit "https://example.com/") 0 (lit "index.md")
  ∧ urlQueue s = []
  ∧ urlQueue (step site s)
    = [(lit "https://example.com/about", 1%Z); (lit "https://example.com/about#team", 1%Z)].
Proof.
  intros s. split; [by vm_compute|]. split; [by vm_compute|].
  etrans.
  - apply (harvest_appends site s (lit "https://example.com/") 0 (lit "index.md") homeLinks);
      by vm_compute.
  - by vm_compute.
Defined.

(** X18 on the site, with the depth limit -1. *)
Lemma negative_limit_opens_nothing_site :
  let s := scrapeToMarkdown site seed (-1) 2 in
  processed s = []
  ∧ pagesScraped (metadata s) = 0%nat
  ∧ documents s = []
  ∧ phase s = Finished (Some []).
Proof.
  intros s.
  destruct (negative_limit_opens_nothing site seed (-1) 2 ltac:(lia))
    as (Hnone & Hcount & Hdocs & Hover).
  split; [exact Hnone|]. split; [exact Hcount|]. split; [exact Hdocs|].
  apply Hover. lia.
Defined.

End MoreScenarioFacts.
